(** * PGMTranslator: a shallow embedding of [src/PGMTranslator.py]

    The script locates a named JSON subtree inside a large [project.json]
    by scanning raw bytes, brackets it by depth counting, and rewrites it in
    place.  This development embeds the functions of the script as Rocq
    functions over an explicit file model and states the properties of the
    specification about them.

    Conventions of the model.
    - A file on disk is the list of its bytes, each byte an integer
      ([list Z], as the script itself turns [bytes] into lists of [int]).
    - A file object is its contents together with a cursor; the cursor is
      threaded explicitly through the functions that move it.
    - A Python [str] read from a text-mode file is a list of characters,
      each character kept as the group of bytes that encodes it in UTF-8,
      so that character counts and byte counts stay distinct.  A read
      decodes the characters it returns and no more; on a file that is
      UTF-8 throughout, the format of a document, that is what Python's
      buffered decoder returns, and [tell] is the byte offset of the next
      character.
    - Python's universal-newline translation is not part of the model:
      the line separator of the platform is the line feed, and the model
      of a text-mode file is that of a file without carriage returns
      ([TextIO.no_cr]).  On a file that has one, Python reads a carriage
      return as a line feed, writes the line feed back, and [tell] may
      return a number that is no byte offset.
    - [while] loops that the script does not bound take a [fuel] argument;
      [OutOfFuel] stands for a loop that is still running.
    - The JSON library and the translation service are collaborators of
      the script, not part of it: they appear as type classes. *)

From Stdlib Require Import String Ascii.
From Stdlib Require Import ZArith Lia Bool Arith List.
Import ListNotations.

Local Open Scope Z_scope.
Set Warnings "-register-all".

(** ** Outcomes of a call *)

Inductive error : Type :=
| OSError              (* seek to a negative offset on a binary file *)
| ValueError           (* seek to a negative offset on a text file *)
| UnicodeDecodeError   (* the bytes under the cursor are not UTF-8 *)
| JSONDecodeError      (* [json.load] / [json.loads] rejected its input *)
| KeyError             (* a dictionary key is missing *)
| TypeError            (* an operation applied to a value of the wrong type *)
| AttributeError.      (* a method the value does not have *)

Inductive outcome (A : Type) : Type :=
| Ret (a : A)
| Raise (e : error)
| OutOfFuel.

Arguments Ret {A} a.
Arguments Raise {A} e.
Arguments OutOfFuel {A}.

Definition bind {A B : Type} (m : outcome A) (k : A -> outcome B) : outcome B :=
  match m with
  | Ret a => k a
  | Raise e => Raise e
  | OutOfFuel => OutOfFuel
  end.

Notation "'let*' x ':=' m 'in' k" := (bind m (fun x => k))
  (at level 10, x pattern, m at level 100, k at level 200).

(** ** Utils functions *)

Module Utils.

(** [locale.index(c)]; [None] where Python raises (the script tests
    [c in locale] first). *)
Fixpoint str_index (c : ascii) (s : string) : option nat :=
  match s with
  | EmptyString => None
  | String a s' =>
      if Ascii.eqb a c then Some 0%nat else option_map S (str_index c s')
  end.

(** [c in locale] for a one-character [c]. *)
Definition str_contains (c : ascii) (s : string) : bool :=
  match str_index c s with Some _ => true | None => false end.

(** [locale[:n]] for a non-negative [n]. *)
Definition str_prefix (n : Z) (s : string) : string :=
  substring 0 (Z.to_nat n) s.

Definition index_or_minus_one (c : ascii) (s : string) : Z :=
  match str_index c s with Some i => Z.of_nat i | None => -1 end.

Definition iso_from_locale (locale : string) : string :=
  let separator_index :=
    if str_contains "-"%char locale then index_or_minus_one "-"%char locale
    else if str_contains "_"%char locale then index_or_minus_one "_"%char locale
    else -1 in
  if negb (separator_index =? -1) then str_prefix separator_index locale
  else locale.

(** The substring of [s] up to the first occurrence of [c]; all of [s]
    when [c] does not occur. *)
Fixpoint up_to (c : ascii) (s : string) : string :=
  match s with
  | EmptyString => EmptyString
  | String a s' => if Ascii.eqb a c then EmptyString else String a (up_to c s')
  end.

(** The primary subtag in the words of the specification: the substring
    up to the first [-] or [_], whichever occurs first, and the whole
    string when neither occurs. *)
Fixpoint primary_subtag (s : string) : string :=
  match s with
  | EmptyString => EmptyString
  | String a s' =>
      if Ascii.eqb a "-" || Ascii.eqb a "_" then EmptyString
      else String a (primary_subtag s')
  end.

(** [slice == list[i:len_s+i]] on lists of integers. *)
Fixpoint list_eqb (a b : list Z) : bool :=
  match a, b with
  | [], [] => true
  | x :: a', y :: b' => (x =? y) && list_eqb a' b'
  | _, _ => false
  end.

(** [range(len(list) - len_s + 1)] is empty when the difference is
    negative; on naturals that is [S (length list) - len_s]. *)
Definition is_slice_in_list (slice list : list Z) : bool :=
  let len_s := length slice in
  existsb (fun i => list_eqb slice (firstn len_s (skipn i list)))
          (seq 0 (S (length list) - len_s)).

(** [message(t, text)] prints one line; the model appends it to a log.
    The colour codes of the prefix are left out. *)
Definition message (t text : string) (log : list string) : list string :=
  let prefix :=
    (if String.eqb t "error" then "[Error]" else "[Info]")%string in
  log ++ [(prefix ++ " " ++ text)%string].

End Utils.

(** ** Json/stream related functions: the byte pattern locator *)

Module Locator.

Import Utils.

(** [[i for i in str.encode(pattern)]]: a [string] is the sequence of the
    bytes of its UTF-8 encoding. *)
Definition str_encode (s : string) : list Z :=
  map (fun a => Z.of_N (N_of_ascii a)) (list_ascii_of_string s).

Definition enumerate {A : Type} (l : list A) : list (nat * A) :=
  combine (seq 0 (length l)) l.

(** [[i for i, char in enumerate(stream) if char == DEC_ARRAY_PATTERN[0]]].
    With an empty pattern the window is empty too and the subscript is
    never evaluated. *)
Definition occourrences (pattern stream : list Z) : list nat :=
  match pattern with
  | [] => []
  | p0 :: _ => map fst (filter (fun ic => snd ic =? p0) (enumerate stream))
  end.

(** The indices of the bytes of [l] equal to [p0], counted from [k]. *)
Definition occ_from (p0 : Z) (k : nat) (l : list Z) : list nat :=
  map fst (filter (fun ic : nat * Z => snd ic =? p0) (combine (seq k (length l)) l)).

(** What one pass of the [for i in occourrences] loop leaves behind:
    a [return], or the cursor at which the [while] loop goes on. *)
Inductive scan : Type :=
| Found (offset : Z)
| Cursor (pos : nat).

Fixpoint scan_occourrences (pattern stream : list Z) (tell : nat)
    (occ : list nat) : scan :=
  match occ with
  | [] => Cursor tell
  | i :: occ' =>
      let subset := skipn i stream in
      if negb (is_slice_in_list subset pattern) then
        scan_occourrences pattern stream tell occ'
      else if list_eqb subset pattern then
        Found (Z.of_nat tell - Z.of_nat (length pattern))
      else
        Cursor (tell - length subset)
  end.

(** One iteration of [while f.tell() < end_position], from cursor [pos]. *)
Definition search_step (data pattern : list Z) (pos : nat) : scan :=
  let stream := firstn (length pattern) (skipn pos data) in
  let tell := (pos + length stream)%nat in
  scan_occourrences pattern stream tell (occourrences pattern stream).

Fixpoint search_loop (fuel : nat) (data pattern : list Z)
    (end_position pos : nat) : outcome Z :=
  match fuel with
  | O => OutOfFuel
  | S fuel' =>
      if (pos <? end_position)%nat then
        match search_step data pattern pos with
        | Found o => Ret o
        | Cursor pos' => search_loop fuel' data pattern end_position pos'
        end
      else Ret (-1)
  end.

(** [stream_search(path, pattern, start)], on the bytes [data] of the file
    at [path]. *)
Definition stream_search (fuel : nat) (data : list Z) (pattern : string)
    (start : Z) : outcome Z :=
  if start <? 0 then Raise OSError
  else search_loop fuel data (str_encode pattern) (length data) (Z.to_nat start).

(** [bytes[o, o+len(P)) == P]. *)
Definition occurs_at (data pattern : list Z) (o : nat) : Prop :=
  firstn (length pattern) (skipn o data) = pattern.

End Locator.

(** ** Files opened in text mode *)

Module TextIO.

(** One character of a [str], as the bytes of its UTF-8 encoding. *)
Definition char : Type := list Z.

(** A [str]. *)
Definition text : Type := list char.

(** [str.encode] of a text: the bytes it occupies on disk. *)
Definition encode (t : text) : list Z := concat t.

(** A string literal of the script (ASCII) as a [str]. *)
Definition literal (s : string) : text :=
  map (fun a => [Z.of_N (N_of_ascii a)]) (list_ascii_of_string s).

Fixpoint char_eqb (a b : char) : bool :=
  match a, b with
  | [], [] => true
  | x :: a', y :: b' => (x =? y) && char_eqb a' b'
  | _, _ => false
  end.

(** [s == t] on [str]. *)
Fixpoint text_eqb (s t : text) : bool :=
  match s, t with
  | [], [] => true
  | c :: s', d :: t' => char_eqb c d && text_eqb s' t'
  | _, _ => false
  end.

Definition in_range (lo hi b : Z) : bool := (lo <=? b) && (b <=? hi).

(** A continuation byte. *)
Definition cont (b : Z) : bool := in_range 128 191 b.

(** The lead byte and first continuation byte of a well-formed three-byte
    sequence (no overlong forms, no surrogates). *)
Definition lead3 (b0 b1 : Z) : bool :=
  ((b0 =? 224) && in_range 160 191 b1)
  || (in_range 225 236 b0 && cont b1)
  || ((b0 =? 237) && in_range 128 159 b1)
  || (in_range 238 239 b0 && cont b1).

(** The same for a four-byte sequence (up to U+10FFFF). *)
Definition lead4 (b0 b1 : Z) : bool :=
  ((b0 =? 240) && in_range 144 191 b1)
  || (in_range 241 243 b0 && cont b1)
  || ((b0 =? 244) && in_range 128 143 b1).

Inductive decoded : Type :=
| Eof
| Char (c : char) (rest : list Z)
| Malformed.

(** The strict UTF-8 decoder, one character at a time. *)
Definition next_char (bs : list Z) : decoded :=
  match bs with
  | [] => Eof
  | b0 :: r0 =>
      if in_range 0 127 b0 then Char [b0] r0
      else
        match r0 with
        | [] => Malformed
        | b1 :: r1 =>
            if in_range 194 223 b0 && cont b1 then Char [b0; b1] r1
            else
              match r1 with
              | [] => Malformed
              | b2 :: r2 =>
                  if lead3 b0 b1 && cont b2 then Char [b0; b1; b2] r2
                  else
                    match r2 with
                    | [] => Malformed
                    | b3 :: r3 =>
                        if lead4 b0 b1 && cont b2 && cont b3
                        then Char [b0; b1; b2; b3] r3
                        else Malformed
                    end
              end
        end
  end.

(** Decode at most [n] characters from the bytes under the cursor;
    [None] is a [UnicodeDecodeError]. *)
Fixpoint decode_chars (n : nat) (bs : list Z) : option text :=
  match n with
  | O => Some []
  | S n' =>
      match next_char bs with
      | Eof => Some []
      | Malformed => None
      | Char c rest => option_map (cons c) (decode_chars n' rest)
      end
  end.

(** Every character of the text is ASCII, as in the output of
    [json.dumps] with its default [ensure_ascii]. *)
Definition ascii_text (t : text) : bool :=
  forallb (fun c => match c with [b] => in_range 0 127 b | _ => false end) t.

(** The bytes [bs] are UTF-8 from their first to their last. *)
Definition utf8 (bs : list Z) : Prop := decode_chars (length bs) bs <> None.

(** No byte of [bs] is a carriage return.  On such bytes the newline
    decoder of a text-mode file has nothing to translate and holds nothing
    back: the characters read are those on disk, the characters written
    are those handed to [write], and [tell] is a byte offset. *)
Definition no_cr (bs : list Z) : bool := forallb (fun b => negb (b =? 13)) bs.

(** A file object: the bytes on disk and the cursor, a byte offset. *)
Record file : Type := mkFile { contents : list Z; cursor : nat }.

(** [open(path, mode)]: the cursor starts at 0. *)
Definition open_file (data : list Z) : file := mkFile data 0.

(** [f.tell()] on a file without carriage returns: the byte offset of the
    next character.  After a carriage return Python may return instead a
    number that also encodes the state of the newline decoder; such files
    are outside the model. *)
Definition tell (f : file) : Z := Z.of_nat (cursor f).

(** [f.seek(pos)]. *)
Definition seek (f : file) (pos : Z) : outcome file :=
  if pos <? 0 then Raise ValueError
  else Ret (mkFile (contents f) (Z.to_nat pos)).

(** [f.read(n)] for [n >= 0]: at most [n] characters, not bytes.  The
    model is that of a file without carriage returns (Python hands out a
    carriage return, alone or before a line feed, as one line feed) whose
    bytes are UTF-8 from the cursor to the end: Python decodes a whole
    buffer at a time and raises on a malformed byte that lies after the
    characters asked for, where this function decodes no further than
    them. *)
Definition read (n : nat) (f : file) : outcome (text * file) :=
  match decode_chars n (skipn (cursor f) (contents f)) with
  | None => Raise UnicodeDecodeError
  | Some t =>
      Ret (t, mkFile (contents f) (cursor f + length (encode t)))
  end.

(** [f.read()]: every character up to the end of the file.  A character
    takes at least one byte, so the number of bytes left bounds the count.
    As [read], for a file without carriage returns. *)
Definition read_all (f : file) : outcome (text * file) :=
  read (length (skipn (cursor f) (contents f))) f.

(** Bytes written at offset [pos] replace what was there and extend the
    file when they run past its end; a gap is filled with zero bytes. *)
Definition write_bytes (data : list Z) (pos : nat) (bs : list Z) : list Z :=
  firstn pos data ++ repeat 0 (pos - length data) ++ bs
  ++ skipn (pos + length bs) data.

(** [f.write(s)]. *)
Definition write (s : text) (f : file) : file :=
  mkFile (write_bytes (contents f) (cursor f) (encode s))
         (cursor f + length (encode s)).

(** [f.truncate()]: cut the file at the cursor. *)
Definition truncate (f : file) : file :=
  mkFile (firstn (cursor f) (contents f)) (cursor f).

(** [temp.readline(limit)] on the text still unread in [temp]: the line
    up to and including its newline, or [limit] characters, whichever
    comes first; and what is left. *)
Fixpoint readline (limit : nat) (t : text) : text * text :=
  match limit, t with
  | O, _ => ([], t)
  | _, [] => ([], [])
  | S limit', c :: t' =>
      if char_eqb c [10] then ([c], t')
      else let (line, rest) := readline limit' t' in (c :: line, rest)
  end.

End TextIO.

(** ** Json/stream related functions: the bracket-balance span finder *)

Module Brackets.

Import TextIO.

(** The body of [while brackets_open != 0]. *)
Fixpoint brackets_loop (fuel : nat) (f : file) (open_bracket close_bracket : text)
    (brackets_open : Z) : outcome file :=
  match fuel with
  | O => OutOfFuel
  | S fuel' =>
      if brackets_open =? 0 then Ret f
      else
        let* (c, f') := read 1 f in
        let brackets_open' :=
          if text_eqb c open_bracket then brackets_open + 1
          else if text_eqb c close_bracket then brackets_open - 1
          else brackets_open in
        brackets_loop fuel' f' open_bracket close_bracket brackets_open'
  end.

(** [find_couple_brackets_end(file, open_bracket, close_bracket, reset)]:
    the value returned and the file object as the call leaves it. *)
Definition find_couple_brackets_end (fuel : nat) (f : file)
    (open_bracket close_bracket : text) (reset : bool) : outcome (Z * file) :=
  let start := tell f in
  let* (_, f1) := read 1 f in
  let* f2 := brackets_loop fuel f1 open_bracket close_bracket 1 in
  let cursor_end_array := tell f2 in
  let* f3 := (if reset then seek f2 start else Ret f2) in
  Ret (cursor_end_array, f3).

(** The bytes [data[a, b)]. *)
Definition slice (data : list Z) (a b : nat) : list Z :=
  firstn (b - a) (skipn a data).

Definition count (b : Z) (bs : list Z) : Z :=
  Z.of_nat (count_occ Z.eq_dec bs b).

(** The naive depth scan of the specification: 1 once the opener at
    [start] is consumed, plus one per opener and minus one per closer
    among the bytes [data[start+1, k)]. *)
Definition naive_depth (data : list Z) (ob cb : Z) (start k : nat) : Z :=
  1 + count ob (slice data (S start) k) - count cb (slice data (S start) k).

(** The depth after [k] more bytes of [rest], from depth [d]. *)
Definition dep (ob cb : Z) (d : Z) (rest : list Z) (k : nat) : Z :=
  d + count ob (firstn k rest) - count cb (firstn k rest).

(** What a group of bytes adds to the depth. *)
Definition delta (ob cb : Z) (c : list Z) : Z := count ob c - count cb c.

End Brackets.

(** ** The JSON collaborator *)

Module Json.

Import TextIO.

(** What [json.load] returns.  A [float] is kept as its [repr]; the
    script never computes with one. *)
Inductive json : Type :=
| JNull
| JBool (b : bool)
| JInt (z : Z)
| JFloat (repr : string)
| JStr (s : string)
| JArr (items : list json)
| JObj (members : list (string * json)).

(** The [json] module: [loads] is [json.loads] (and [json.load] after a
    full read), [None] standing for a [JSONDecodeError]; [dumps] is
    [json.dumps(v)]; [dumps_compact] is serialisation with
    [indent=None, separators=(',',':')]. *)
Class JsonLib : Type := {
  loads : text -> option json;
  dumps : json -> text;
  dumps_compact : json -> text
}.

Definition json_loads `{JsonLib} (t : text) : outcome json :=
  match loads t with
  | Some v => Ret v
  | None => Raise JSONDecodeError
  end.

(** [js[key]]. *)
Fixpoint lookup (key : string) (members : list (string * json)) : option json :=
  match members with
  | [] => None
  | (k, v) :: rest => if String.eqb k key then Some v else lookup key rest
  end.

Definition getitem (js : json) (key : string) : outcome json :=
  match js with
  | JObj members =>
      match lookup key members with
      | Some v => Ret v
      | None => Raise KeyError
      end
  | _ => Raise TypeError
  end.

(** [js[key] = v] on a dictionary that has the key: the entry keeps its
    place. *)
Fixpoint replace (key : string) (v : json) (members : list (string * json))
    : list (string * json) :=
  match members with
  | [] => []
  | (k, w) :: rest =>
      if String.eqb k key then (k, v) :: rest
      else (k, w) :: replace key v rest
  end.

(** [x == lang] for an element [x] of a list and a [str]. *)
Definition is_str (lang : string) (x : json) : bool :=
  match x with
  | JStr s => String.eqb s lang
  | _ => false
  end.

(** [lang in container]: membership in a list, a key of a dictionary, a
    substring of a string. *)
Definition contains (container : json) (lang : string) : outcome bool :=
  match container with
  | JArr items => Ret (existsb (is_str lang) items)
  | JObj members =>
      Ret (match lookup lang members with Some _ => true | None => false end)
  | JStr s =>
      Ret (match String.index 0 lang s with Some _ => true | None => false end)
  | _ => Raise TypeError
  end.

(** [container.append(lang)]. *)
Definition append (container : json) (lang : string) : outcome json :=
  match container with
  | JArr items => Ret (JArr (items ++ [JStr lang]))
  | _ => Raise AttributeError
  end.

End Json.

(** ** Translation related functions: the batch traversal *)

Module Translation.

Import Utils.

(** The translation service: [ts.google(value, from_language, to_language)]
    run in a state of the service returns a translation ([inl]) or raises
    an exception carrying a message ([inr]), and leaves a new state. *)
Class Translator : Type := {
  service : Type;
  google : service -> string -> string -> string -> (string + string) * service
}.

(** A per-locale text mapping, in insertion order. *)
Definition mapping : Type := list (string * string).

(** A node of the working value in the shape of the document format: an
    optional [text] mapping and an optional [children] list.  The other
    keys of a node are never read or written by the traversal. *)
Inductive node : Type :=
| Node (text : option mapping) (children : option (list node)).

(** [dictionary.get(key)]. *)
Fixpoint get (key : string) (d : mapping) : option string :=
  match d with
  | [] => None
  | (k, v) :: rest => if String.eqb k key then Some v else get key rest
  end.

(** [key in dictionary]. *)
Definition mem (key : string) (d : mapping) : bool :=
  match get key d with Some _ => true | None => false end.

(** [d[key] = v]: an existing key keeps its place, a new one goes last. *)
Fixpoint set (key v : string) (d : mapping) : mapping :=
  match d with
  | [] => [(key, v)]
  | (k, w) :: rest =>
      if String.eqb k key then (k, v) :: rest else (k, w) :: set key v rest
  end.

(** What the traversal acts on besides the tree: the messages printed so
    far and the state of the translation service. *)
Record world `{Translator} : Type := mkWorld {
  log : list string;
  remote : service
}.

Arguments mkWorld {_} log remote.

Definition newline : string := String (ascii_of_nat 10) EmptyString.

(** [value = dictionary.get(lang_src, default_value)]. *)
Definition source_value (lang_src : string) (dictionary : mapping)
    (default_value : string) : string :=
  match get lang_src dictionary with
  | Some v => v
  | None => default_value
  end.

(** [src = "auto" if lang_src == "auto" else iso_from_locale(lang_src)]. *)
Definition source_language (lang_src : string) : string :=
  if String.eqb lang_src "auto" then "auto"%string else iso_from_locale lang_src.

(** The two messages of the [except] branch, added to the log. *)
Definition log_failure (e : string) (log : list string) : list string :=
  message "error" "The last translation was not carried out"
    (message "error"
       ("An exception has occurred:" ++ newline ++ " " ++ e)%string log).

(** The part of the loop body that handles a child carrying a [text]
    mapping. *)
Definition translate_text `{Translator} (lang_src lang_dest : string)
    (skip : bool) (dictionary : mapping) (w : world) : mapping * world :=
  match dictionary with
  | [] => (dictionary, w)
  | (_, default_value) :: _ =>
      if skip && mem lang_dest dictionary then (dictionary, w)
      else
        let value := source_value lang_src dictionary default_value in
        let src := source_language lang_src in
        match google (remote w) value src (iso_from_locale lang_dest) with
        | (inl translation, remote') =>
            (set lang_dest translation dictionary, mkWorld (log w) remote')
        | (inr e, remote') =>
            (dictionary, mkWorld (log_failure e (log w)) remote')
        end
  end.

(** The body of the loop over the children of a block, for one child.  The
    inner [fix] is the loop of the recursive call
    [translate_block(child, 1, lang_src, lang_dest, skip)]. *)
Fixpoint translate_child `{Translator} (lang_src lang_dest : string)
    (skip : bool) (child : node) (w : world) {struct child} : node * world :=
  match child with
  | Node None None => (child, w)
  | Node None (Some grandchildren) =>
      let fix each (cs : list node) (w : world) : list node * world :=
        match cs with
        | [] => ([], w)
        | c :: rest =>
            let (c', w1) := translate_child lang_src lang_dest skip c w in
            let (rest', w2) := each rest w1 in
            (c' :: rest', w2)
        end in
      let (grandchildren', w') := each grandchildren w in
      (Node None (Some grandchildren'), w')
  | Node (Some dictionary) cs =>
      let (dictionary', w') :=
        translate_text lang_src lang_dest skip dictionary w in
      (Node (Some dictionary') cs, w')
  end.

(** The loop over the children of a block. *)
Fixpoint translate_children `{Translator} (lang_src lang_dest : string)
    (skip : bool) (cs : list node) (w : world) : list node * world :=
  match cs with
  | [] => ([], w)
  | c :: rest =>
      let (c', w1) := translate_child lang_src lang_dest skip c w in
      let (rest', w2) := translate_children lang_src lang_dest skip rest w1 in
      (c' :: rest', w2)
  end.

(** [translate_block(block, index, lang_src, lang_dest, skip)]: the block
    as the call leaves it (it is updated in place) and the world.
    [index] only labels the progress bar and is left out. *)
Definition translate_block `{Translator} (block : node)
    (lang_src lang_dest : string) (skip : bool) (w : world)
    : outcome (node * world) :=
  match block with
  | Node _ None => Raise KeyError
  | Node t (Some cs) =>
      let (cs', w') := translate_children lang_src lang_dest skip cs w in
      Ret (Node t (Some cs'), w')
  end.

End Translation.

(** ** The operations on [project.json] *)

Module Rewriter.

Import Locator TextIO Brackets Json.

(** [optimize(project_json_path)]: the bytes of the file once the call
    has returned. *)
Definition optimize `{JsonLib} (project : list Z) : outcome (list Z) :=
  let f := open_file project in
  let* (t, f) := read_all f in
  let* data := json_loads t in
  let* f := seek f 0 in
  let f := write (dumps_compact data) f in
  let f := truncate f in
  Ret (contents f).

(** [extract_localization(project_json_path, file)]: the bytes written to
    the working file [file.name]. *)
Definition extract_localization `{JsonLib} (fuel : nat) (project : list Z)
    : outcome (list Z) :=
  let f := open_file project in
  let* textlist_index := stream_search fuel project "textList" 0 in
  let* textlist_index := stream_search fuel project "[" textlist_index in
  let* f := seek f textlist_index in
  let* (end_texlist_index, f) :=
    find_couple_brackets_end fuel f (literal "[") (literal "]") true in
  let* (data, f) := read (Z.to_nat (end_texlist_index - textlist_index)) f in
  let* js := json_loads data in
  Ret (encode (dumps js)).

(** The loop that transfers the side buffer back,
    [while True: line = temp.readline(2048); if not line: break; f.write(line)],
    on the text still unread in [temp]. *)
Fixpoint copy_lines (fuel : nat) (temp : text) (f : file) : outcome file :=
  match fuel with
  | O => OutOfFuel
  | S fuel' =>
      let (line, temp') := readline 2048 temp in
      match line with
      | [] => Ret f
      | _ :: _ => copy_lines fuel' temp' (write line f)
      end
  end.

(** [js['language'] = language] after the in-place [append]. *)
Definition setitem (js : json) (key : string) (v : json) : json :=
  match js with
  | JObj members => JObj (replace key v members)
  | _ => js
  end.

(** [add_language_support(project_json_path, lang_dest)]: the bytes of the
    file once the call has returned.  Every exception of the call is
    raised before its first write. *)
Definition add_language_support `{JsonLib} (fuel : nat) (project : list Z)
    (lang_dest : string) : outcome (list Z) :=
  let f := open_file project in
  let* gi_index := stream_search fuel project "gameInformation" 0 in
  let* gi_index := stream_search fuel project "{" gi_index in
  let* f := seek f gi_index in
  let* (end_gi_index, f) :=
    find_couple_brackets_end fuel f (literal "{") (literal "}") true in
  let* (data, f) := read (Z.to_nat (end_gi_index - gi_index)) f in
  let* js := json_loads data in
  let* language := getitem js "language" in
  let* present := contains language lang_dest in
  if negb present then
    let* language := append language lang_dest in
    let js := setitem js "language" language in
    let* (temp, f) := read_all f in
    let* f := seek f gi_index in
    let f := write (dumps js) f in
    let* f := copy_lines fuel temp f in
    Ret (contents f)
  else Ret (contents f).

(** [add_translation(project_json_path, file)], [working] being the bytes
    of the working file [file.name]: the bytes of [project.json] once the
    call has returned. *)
Definition add_translation `{JsonLib} (fuel : nat) (project working : list Z)
    : outcome (list Z) :=
  let f := open_file project in
  let* textlist_index := stream_search fuel project "textList" 0 in
  let* textlist_index := stream_search fuel project "[" textlist_index in
  let* f := seek f textlist_index in
  let* (_, f) :=
    find_couple_brackets_end fuel f (literal "[") (literal "]") false in
  let* (temp, f) := read_all f in
  let* (fo, _) := read_all (open_file working) in
  let* translation_array := json_loads fo in
  let* f := seek f textlist_index in
  let f := write (dumps translation_array) f in
  let* f := copy_lines fuel temp f in
  Ret (contents f).

End Rewriter.

(** ** A small JSON library

    A stand-in for Python's [json] module on ASCII documents made of
    objects, arrays, strings without escapes, integers and the three
    literals.  The theorems below hold for any [JsonLib]; this instance
    lets them run on concrete documents. *)

Module MiniJson.

Import TextIO Json.

Definition is_ws (b : Z) : bool :=
  (b =? 32) || (b =? 10) || (b =? 13) || (b =? 9).

Fixpoint skip_ws (bs : list Z) : list Z :=
  match bs with
  | b :: r => if is_ws b then skip_ws r else bs
  | [] => []
  end.

Definition to_ascii (b : Z) : ascii := ascii_of_N (Z.to_N b).

(** The characters of a string up to its closing quote. *)
Fixpoint parse_string (bs : list Z) : option (string * list Z) :=
  match bs with
  | [] => None
  | b :: r =>
      if b =? 34 then Some (EmptyString, r)
      else if (b =? 92) || (b <? 32) || (127 <? b) then None
      else
        match parse_string r with
        | Some (s, r') => Some (String (to_ascii b) s, r')
        | None => None
        end
  end.

Definition is_digit (b : Z) : bool := (48 <=? b) && (b <=? 57).

Fixpoint parse_digits (acc : Z) (bs : list Z) : Z * list Z :=
  match bs with
  | b :: r => if is_digit b then parse_digits (10 * acc + (b - 48)) r else (acc, bs)
  | [] => (acc, [])
  end.

Fixpoint parse_items (value : list Z -> option (json * list Z)) (fuel : nat)
    (bs : list Z) : option (list json * list Z) :=
  match fuel with
  | O => None
  | S fuel' =>
      match value bs with
      | None => None
      | Some (v, r) =>
          match skip_ws r with
          | 44 :: r' =>
              match parse_items value fuel' r' with
              | Some (vs, r'') => Some (v :: vs, r'')
              | None => None
              end
          | 93 :: r' => Some ([v], r')
          | _ => None
          end
      end
  end.

Fixpoint parse_members (value : list Z -> option (json * list Z)) (fuel : nat)
    (bs : list Z) : option (list (string * json) * list Z) :=
  match fuel with
  | O => None
  | S fuel' =>
      match skip_ws bs with
      | 34 :: r =>
          match parse_string r with
          | None => None
          | Some (k, r1) =>
              match skip_ws r1 with
              | 58 :: r2 =>
                  match value r2 with
                  | None => None
                  | Some (v, r3) =>
                      match skip_ws r3 with
                      | 44 :: r4 =>
                          match parse_members value fuel' r4 with
                          | Some (ms, r5) => Some ((k, v) :: ms, r5)
                          | None => None
                          end
                      | 125 :: r4 => Some ([(k, v)], r4)
                      | _ => None
                      end
                  end
              | _ => None
              end
          end
      | _ => None
      end
  end.

Fixpoint parse_value (fuel : nat) (bs : list Z) : option (json * list Z) :=
  match fuel with
  | O => None
  | S fuel' =>
      match skip_ws bs with
      | 91 :: r =>
          match skip_ws r with
          | 93 :: r' => Some (JArr [], r')
          | _ =>
              match parse_items (parse_value fuel') fuel' r with
              | Some (vs, r') => Some (JArr vs, r')
              | None => None
              end
          end
      | 123 :: r =>
          match skip_ws r with
          | 125 :: r' => Some (JObj [], r')
          | _ =>
              match parse_members (parse_value fuel') fuel' r with
              | Some (ms, r') => Some (JObj ms, r')
              | None => None
              end
          end
      | 34 :: r =>
          match parse_string r with
          | Some (s, r') => Some (JStr s, r')
          | None => None
          end
      | 116 :: 114 :: 117 :: 101 :: r => Some (JBool true, r)
      | 102 :: 97 :: 108 :: 115 :: 101 :: r => Some (JBool false, r)
      | 110 :: 117 :: 108 :: 108 :: r => Some (JNull, r)
      | 45 :: b :: r =>
          if is_digit b then
            let (n, r') := parse_digits 0 (b :: r) in Some (JInt (- n), r')
          else None
      | b :: r =>
          if is_digit b then
            let (n, r') := parse_digits 0 (b :: r) in Some (JInt n, r')
          else None
      | [] => None
      end
  end.

Definition mini_loads (t : text) : option json :=
  let bs := encode t in
  match parse_value (S (length bs)) bs with
  | Some (v, r) => match skip_ws r with [] => Some v | _ => None end
  | None => None
  end.

Definition bytes_of_string (s : string) : list Z :=
  map (fun a => Z.of_N (N_of_ascii a)) (list_ascii_of_string s).

Fixpoint digits (fuel : nat) (n : Z) (acc : list Z) : list Z :=
  match fuel with
  | O => acc
  | S fuel' =>
      let acc' := (48 + n mod 10) :: acc in
      if n <? 10 then acc' else digits fuel' (n / 10) acc'
  end.

Definition print_int (z : Z) : list Z :=
  if z <? 0 then 45 :: digits (Z.to_nat (- z)) (- z) []
  else digits (S (Z.to_nat z)) z [].

Definition quote (s : string) : list Z := 34 :: bytes_of_string s ++ [34].

(** [item_sep] and [key_sep] are the two separators of [json.dumps]. *)
Fixpoint print (item_sep key_sep : list Z) (v : json) : list Z :=
  match v with
  | JNull => bytes_of_string "null"
  | JBool true => bytes_of_string "true"
  | JBool false => bytes_of_string "false"
  | JInt z => print_int z
  | JFloat r => bytes_of_string r
  | JStr s => quote s
  | JArr items =>
      let fix go (l : list json) : list Z :=
        match l with
        | [] => []
        | [x] => print item_sep key_sep x
        | x :: rest => print item_sep key_sep x ++ item_sep ++ go rest
        end in
      91 :: go items ++ [93]
  | JObj members =>
      let fix go (l : list (string * json)) : list Z :=
        match l with
        | [] => []
        | [(k, x)] => quote k ++ key_sep ++ print item_sep key_sep x
        | (k, x) :: rest =>
            quote k ++ key_sep ++ print item_sep key_sep x ++ item_sep ++ go rest
        end in
      123 :: go members ++ [125]
  end.

Definition to_text (bs : list Z) : text := map (fun b => [b]) bs.

#[export] Instance mini : JsonLib := {
  loads := mini_loads;
  dumps v := to_text (print [44; 32] [58; 32] v);
  dumps_compact v := to_text (print [44] [58] v)
}.

End MiniJson.

(** ** Documents used as examples *)

Module Documents.

Import Locator.

Definition dquote : string := String "034"%char EmptyString.

(** [s] between double quotes. *)
Definition quoted (s : string) : string := (dquote ++ s ++ dquote)%string.

(** A file cut short inside the key [text]: an opening brace, a quote and
    the four letters. *)
Definition cut_short : list Z := str_encode ("{" ++ dquote ++ "text").

(** A file that ends with the two bytes of an empty array. *)
Definition ends_with_array : list Z := str_encode ("{" ++ quoted "a" ++ ":[]").

(** A document whose [textList] array, at offset 12, nests two arrays
    and holds a two-byte character. *)
Definition nested : list Z :=
  str_encode ("{" ++ quoted "textList" ++ ":[[1],[") ++ [195; 169]
  ++ str_encode ("]]," ++ quoted "x" ++ ":[]}").

(** An array opened twice and closed once. *)
Definition unclosed : list Z := str_encode "[[1]".

(** The document of the scenario of the specification. *)
Definition scenario : list Z :=
  str_encode ("{" ++ quoted "textList" ++ ":[{" ++ quoted "children" ++ ":[{"
              ++ quoted "text" ++ ":{" ++ quoted "en_US" ++ ":" ++ quoted "Hello"
              ++ "}}]}]," ++ quoted "gameInformation" ++ ":{" ++ quoted "language"
              ++ ":[" ++ quoted "en_US" ++ "]}}").

(** A document whose [textList] array, the six bytes from offset 12 to
    offset 18, holds one string of one two-byte character. *)
Definition accented : list Z :=
  str_encode ("{" ++ quoted "textList" ++ ":[" ++ dquote) ++ [195; 169]
  ++ str_encode (dquote ++ "]}").

(** The six characters, seven bytes, that start at offset 12 of
    [accented]: the array and the closing brace after it. *)
Definition accented_over_read : TextIO.text :=
  [[91]; [34]; [195; 169]; [34]; [93]; [125]].

(** A document whose [textList] array, from offset 12 to offset 18, is
    empty and padded with four spaces. *)
Definition padded : list Z := str_encode ("{" ++ quoted "textList" ++ ":[    ]}").

(** [padded] once the array is rewritten without its padding. *)
Definition unpadded : list Z := str_encode ("{" ++ quoted "textList" ++ ":[]}").

(** A working file that holds an empty array. *)
Definition empty_array : list Z := str_encode "[]".

(** A document laid out with spaces. *)
Definition spaced : list Z :=
  str_encode ("{ " ++ quoted "a" ++ " : [1, 2] , " ++ quoted "b" ++ " : null }").

(** A translation service that fails on its second call and otherwise
    answers with the text followed by the name of the target language;
    its state counts the calls made. *)
#[export] Instance flaky : Translation.Translator := {
  service := nat;
  google n value _ to_language :=
    if Nat.eqb n 1 then (inr "timed out"%string, S n)
    else (inl (value ++ " in " ++ to_language)%string, S n)
}.

(** A child node that carries the text [s] for the locale [en_US]. *)
Definition says (s : string) : Translation.node :=
  Translation.Node (Some [("en_US"%string, s)]) None.

End Documents.

(** ** Views of a translated tree *)

Module Views.

Import Translation.

(** A mapping without its entry for [lang]. *)
Definition without (lang : string) (d : mapping) : mapping :=
  filter (fun kv => negb (String.eqb (fst kv) lang)) d.

(** A tree without the entries for [lang] of its text mappings. *)
Fixpoint erase (lang : string) (n : node) : node :=
  match n with
  | Node t cs => Node (option_map (without lang) t) (option_map (map (erase lang)) cs)
  end.

(** Nothing is left to translate to [lang] in the node: each text mapping
    the traversal reaches is empty or has an entry for [lang]. *)
Fixpoint settled (lang : string) (n : node) : bool :=
  match n with
  | Node (Some d) _ => match d with [] => true | _ :: _ => mem lang d end
  | Node None (Some cs) => forallb (settled lang) cs
  | Node None None => true
  end.

End Views.

(** ** More example data *)

Module Examples.

Import TextIO Locator Documents.



(** The document of the scenario once [it_IT] is supported. *)
Definition scenario_with_italian : list Z :=
  str_encode ("{" ++ quoted "textList" ++ ":[{" ++ quoted "children" ++ ":[{"
              ++ quoted "text" ++ ":{" ++ quoted "en_US" ++ ":" ++ quoted "Hello"
              ++ "}}]}]," ++ quoted "gameInformation" ++ ":{" ++ quoted "language"
              ++ ": [" ++ quoted "en_US" ++ ", " ++ quoted "it_IT" ++ "]}}").




End Examples.

(** * Properties *)

(** ** The primary subtag of a locale *)

Module LocaleProperties.

Import Utils.

Lemma substring_0_String (a : ascii) (s : string) (n : nat) :
  substring 0 (S n) (String a s) = String a (substring 0 n s).
Proof. reflexivity. Qed.

Lemma substring_0_0 (s : string) : substring 0 0 s = EmptyString.
Proof. destruct s; reflexivity. Qed.

Lemma prefix_at_index (c : ascii) (s : string) (i : nat) :
  str_index c s = Some i -> substring 0 i s = up_to c s.
Proof.
  revert i. induction s as [|a s IH]; intros i; simpl.
  - discriminate.
  - destruct (Ascii.eqb a c).
    + intros [= <-]. reflexivity.
    + destruct (str_index c s) as [j|]; simpl; [|discriminate].
      intros [= <-]. now rewrite (IH j eq_refl).
Qed.

Lemma up_to_absent (c : ascii) (s : string) :
  str_index c s = None -> up_to c s = s.
Proof.
  induction s as [|a s IH]; simpl; [reflexivity|].
  destruct (Ascii.eqb a c); [discriminate|].
  destruct (str_index c s); simpl; [discriminate|].
  intros _. now rewrite IH.
Qed.

(** Without a [-], the first separator is the first [_]. *)
Lemma primary_subtag_no_dash (s : string) :
  str_index "-" s = None -> primary_subtag s = up_to "_" s.
Proof.
  induction s as [|a s IH]; simpl; [reflexivity|].
  destruct (Ascii.eqb a "-"); [discriminate|].
  destruct (str_index "-" s); simpl; [discriminate|].
  intros _. destruct (Ascii.eqb a "_"); [reflexivity|].
  now rewrite IH.
Qed.

Lemma iso_from_locale_cases (locale : string) :
  iso_from_locale locale =
    if str_contains "-" locale then up_to "-" locale
    else if str_contains "_" locale then up_to "_" locale
    else locale.
Proof.
  unfold iso_from_locale, str_contains, index_or_minus_one, str_prefix.
  destruct (str_index "-" locale) as [i|] eqn:Hd.
  - replace (Z.of_nat i =? -1) with false by (symmetry; apply Z.eqb_neq; lia).
    simpl. rewrite Nat2Z.id. now apply prefix_at_index.
  - destruct (str_index "_" locale) as [j|] eqn:Hu.
    + replace (Z.of_nat j =? -1) with false by (symmetry; apply Z.eqb_neq; lia).
      simpl. rewrite Nat2Z.id. now apply prefix_at_index.
    + reflexivity.
Qed.

(** C8, as the code has it: [iso_from_locale] returns the substring up to
    the first [-] when the locale contains a [-]; otherwise it returns the
    primary subtag of the specification, that is the substring up to the
    first [_], or the whole string when there is no separator at all. *)
Theorem iso_from_locale_dash_first (locale : string) :
  iso_from_locale locale =
    if str_contains "-" locale then up_to "-" locale
    else primary_subtag locale.
Proof.
  rewrite iso_from_locale_cases. unfold str_contains.
  destruct (str_index "-" locale) eqn:Hd; [reflexivity|].
  rewrite (primary_subtag_no_dash _ Hd).
  destruct (str_index "_" locale) eqn:Hu; [reflexivity|].
  symmetry. now apply up_to_absent.
Qed.

(** C8, as the specification states it, fails on a locale whose first
    separator is a [_] followed later by a [-]: the code cuts at the [-]. *)
Lemma iso_from_locale_mixed_separators :
  iso_from_locale "en_US-x" = "en_US"%string
  /\ primary_subtag "en_US-x" = "en"%string.
Proof. split; reflexivity. Qed.

End LocaleProperties.

(** ** The byte pattern locator *)

Module LocatorProperties.

Import Utils Locator Documents.

Lemma list_eqb_eq (a b : list Z) : list_eqb a b = true <-> a = b.
Proof.
  revert b. induction a as [|x a IH]; intros [|y b]; simpl;
    try (split; [discriminate|congruence]); [tauto|].
  rewrite andb_true_iff, Z.eqb_eq, IH. split.
  - intros [-> ->]. reflexivity.
  - intros [= -> ->]. auto.
Qed.

Lemma is_slice_in_list_iff (s l : list Z) :
  is_slice_in_list s l = true <->
  exists i, (i + length s <= length l)%nat /\ firstn (length s) (skipn i l) = s.
Proof.
  unfold is_slice_in_list. rewrite existsb_exists. split.
  - intros (i & Hin & Heq). apply in_seq in Hin. apply list_eqb_eq in Heq.
    exists i. split; [lia|congruence].
  - intros (i & Hle & Heq). exists i. split.
    + apply in_seq. lia.
    + apply list_eqb_eq. congruence.
Qed.

(** A slice as long as the list is the list. *)
Lemma is_slice_same_length (s l : list Z) :
  is_slice_in_list s l = true -> length s = length l -> s = l.
Proof.
  intros H Hlen. apply is_slice_in_list_iff in H as (i & Hle & Heq).
  assert (i = 0%nat) as -> by lia.
  rewrite <- Heq, Hlen. simpl. apply firstn_all.
Qed.

(** A prefix of the pattern is a slice of it. *)
Lemma is_slice_prefix (m : nat) (l : list Z) :
  is_slice_in_list (firstn m l) l = true.
Proof.
  apply is_slice_in_list_iff. exists 0%nat. simpl. split.
  - rewrite length_firstn. lia.
  - rewrite length_firstn. destruct (Nat.le_ge_cases m (length l)).
    + now rewrite Nat.min_l by lia.
    + rewrite Nat.min_r by lia. now rewrite firstn_all, firstn_all2 by lia.
Qed.

(** The [for] loop stops at the first index whose subset is a slice of
    the pattern. *)
Lemma scan_occourrences_find (pattern stream : list Z) (tell : nat) (occ : list nat) :
  scan_occourrences pattern stream tell occ =
    match find (fun i => is_slice_in_list (skipn i stream) pattern) occ with
    | None => Cursor tell
    | Some i =>
        if list_eqb (skipn i stream) pattern
        then Found (Z.of_nat tell - Z.of_nat (length pattern))
        else Cursor (tell - length (skipn i stream))
    end.
Proof.
  induction occ as [|i occ IH]; simpl; [reflexivity|].
  destruct (is_slice_in_list (skipn i stream) pattern); simpl; [reflexivity|].
  exact IH.
Qed.

Lemma occ_from_cons (p0 : Z) (k : nat) (x : Z) (l : list Z) :
  occ_from p0 k (x :: l) =
    if x =? p0 then k :: occ_from p0 (S k) l else occ_from p0 (S k) l.
Proof. unfold occ_from. simpl. destruct (x =? p0); reflexivity. Qed.

(** [find] over the occurrences returns the least matching index that
    satisfies the test. *)
Lemma find_occ_from (p : nat -> bool) (p0 : Z) (l : list Z) (k : nat) :
  match find p (occ_from p0 k l) with
  | Some i =>
      (k <= i < k + length l)%nat /\ nth_error l (i - k) = Some p0 /\ p i = true
      /\ forall j, (k <= j < i)%nat -> nth_error l (j - k) = Some p0 -> p j = false
  | None =>
      forall j, (k <= j < k + length l)%nat ->
                nth_error l (j - k) = Some p0 -> p j = false
  end.
Proof.
  revert k. induction l as [|x l IH]; intros k.
  - simpl. intros j Hj. lia.
  - rewrite occ_from_cons. specialize (IH (S k)).
    assert (Hshift : forall j, (S k <= j)%nat ->
              nth_error (x :: l) (j - k) = nth_error l (j - S k)).
    { intros j Hj. replace (j - k)%nat with (S (j - S k)) by lia. reflexivity. }
    assert (Hrest :
      match find p (occ_from p0 (S k) l) with
      | Some i =>
          (k <= i < k + length (x :: l))%nat
          /\ nth_error (x :: l) (i - k) = Some p0 /\ p i = true
          /\ forall j, (S k <= j < i)%nat ->
                       nth_error (x :: l) (j - k) = Some p0 -> p j = false
      | None =>
          forall j, (S k <= j < k + length (x :: l))%nat ->
                    nth_error (x :: l) (j - k) = Some p0 -> p j = false
      end).
    { destruct (find p (occ_from p0 (S k) l)) as [i|].
      - destruct IH as (Hi & Hn & Hp & Hmin). simpl length.
        split; [lia|]. split; [|split; [exact Hp|]].
        + rewrite Hshift by lia. exact Hn.
        + intros j Hj Hnj. rewrite Hshift in Hnj by lia. apply Hmin; auto.
      - intros j Hj Hnj. simpl length in Hj. rewrite Hshift in Hnj by lia.
        apply IH; auto. lia. }
    destruct (x =? p0) eqn:Hx.
    + simpl. destruct (p k) eqn:Hpk.
      * simpl length. split; [lia|]. split; [|split; [exact Hpk|]].
        -- rewrite Nat.sub_diag. simpl. apply Z.eqb_eq in Hx. congruence.
        -- intros j Hj. lia.
      * destruct (find p (occ_from p0 (S k) l)) as [i|].
        -- destruct Hrest as (Hi & Hn & Hp & Hmin).
           split; [exact Hi|]. split; [exact Hn|]. split; [exact Hp|].
           intros j Hj Hnj. destruct (Nat.eq_dec j k) as [->|Hne]; auto.
           apply Hmin; auto. simpl length in *. lia.
        -- intros j Hj Hnj. destruct (Nat.eq_dec j k) as [->|Hne]; auto.
           apply Hrest; auto. simpl length in *. lia.
    + assert (Hk : forall j, j = k -> nth_error (x :: l) (j - k) = Some p0 -> False).
      { intros j -> Hn. rewrite Nat.sub_diag in Hn. simpl in Hn.
        apply Z.eqb_neq in Hx. congruence. }
      destruct (find p (occ_from p0 (S k) l)) as [i|].
      * destruct Hrest as (Hi & Hn & Hp & Hmin).
        split; [exact Hi|]. split; [exact Hn|]. split; [exact Hp|].
        intros j Hj Hnj. destruct (Nat.eq_dec j k) as [->|Hne].
        -- exfalso. eapply Hk; eauto.
        -- apply Hmin; auto. simpl length in *. lia.
      * intros j Hj Hnj. destruct (Nat.eq_dec j k) as [->|Hne].
        -- exfalso. eapply Hk; eauto.
        -- apply Hrest; auto. simpl length in *. lia.
Qed.

Lemma occourrences_occ_from (p0 : Z) (pattern stream : list Z) :
  occourrences (p0 :: pattern) stream = occ_from p0 0 stream.
Proof. reflexivity. Qed.


(** One iteration of the [while] loop, at or before the first match. *)
Section FirstMatch.

Variables (data pattern : list Z) (o : nat).
Hypothesis Hne : pattern <> [].
Hypothesis Hocc : occurs_at data pattern o.

Lemma occurs_in_bounds : (o + length pattern <= length data)%nat.
Proof.
  pose proof (f_equal (@length Z) Hocc) as H.
  rewrite length_firstn, length_skipn in H.
  destruct pattern; [congruence|]. simpl length in *. lia.
Qed.

Lemma window_full (pos : nat) :
  (pos <= o)%nat -> length (firstn (length pattern) (skipn pos data)) = length pattern.
Proof.
  intros Hpos. pose proof occurs_in_bounds.
  rewrite length_firstn, length_skipn. lia.
Qed.

Lemma window_suffix (pos j : nat) :
  (pos + j = o)%nat ->
  skipn j (firstn (length pattern) (skipn pos data)) = firstn (length pattern - j) pattern.
Proof.
  intros Hj. rewrite skipn_firstn_comm, skipn_skipn.
  replace (j + pos)%nat with o by lia.
  pose proof Hocc as H. unfold occurs_at in H.
  rewrite <- H at 3. rewrite firstn_firstn. f_equal. lia.
Qed.

Lemma window_head (pos j : nat) :
  (pos + j = o)%nat -> (j < length pattern)%nat ->
  nth_error (firstn (length pattern) (skipn pos data)) j = hd_error pattern.
Proof.
  intros Hj Hlt. rewrite <- hd_error_skipn, (window_suffix pos j Hj).
  destruct pattern as [|p0 tl]; [congruence|].
  simpl length in *. destruct (S (length tl) - j)%nat eqn:E; [lia|]. reflexivity.
Qed.

Lemma search_step_at_match : search_step data pattern o = Found (Z.of_nat o).
Proof.
  unfold search_step. rewrite scan_occourrences_find.
  set (stream := firstn (length pattern) (skipn o data)).
  assert (Hstream : stream = pattern) by exact Hocc.
  destruct pattern as [|p0 tl] eqn:Hp; [congruence|].
  rewrite occourrences_occ_from.
  pose proof (find_occ_from (fun i => is_slice_in_list (skipn i stream) (p0 :: tl))
                p0 stream 0) as Hfind.
  assert (H0 : is_slice_in_list (skipn 0 stream) (p0 :: tl) = true).
  { simpl. rewrite Hstream. rewrite <- (firstn_all (p0 :: tl)) at 1.
    apply is_slice_prefix. }
  assert (Hn0 : nth_error stream (0 - 0) = Some p0) by (rewrite Hstream; reflexivity).
  destruct (find _ (occ_from p0 0 stream)) as [i|].
  - destruct Hfind as (Hi & _ & _ & Hmin).
    assert (i = 0%nat) as ->.
    { destruct i; [reflexivity|]. specialize (Hmin 0%nat ltac:(lia) Hn0). congruence. }
    simpl skipn. rewrite (proj2 (list_eqb_eq stream (p0 :: tl)) Hstream).
    f_equal. rewrite Hstream. lia.
  - rewrite Hstream in Hfind. specialize (Hfind 0%nat). simpl length in Hfind.
    rewrite Hstream in H0. rewrite Hfind in H0; [discriminate|lia|reflexivity].
Qed.

Lemma search_step_before_match (pos : nat) :
  (pos < o)%nat ->
  (forall o', (pos <= o' < o)%nat -> ~ occurs_at data pattern o') ->
  exists c, search_step data pattern pos = Cursor c /\ (pos < c <= o)%nat.
Proof.
  intros Hpos Hmin. unfold search_step. rewrite scan_occourrences_find.
  set (stream := firstn (length pattern) (skipn pos data)).
  assert (Hlen : length stream = length pattern) by (apply window_full; lia).
  assert (Hnot : stream <> pattern).
  { intros E. apply (Hmin pos); [lia|exact E]. }
  assert (Hpartial : (o < pos + length pattern)%nat ->
            is_slice_in_list (skipn (o - pos) stream) pattern = true
            /\ nth_error stream (o - pos - 0) = hd_error pattern).
  { intros Hlt. split.
    - unfold stream. rewrite (window_suffix pos (o - pos)) by lia.
      apply is_slice_prefix.
    - rewrite Nat.sub_0_r. apply window_head; lia. }
  destruct pattern as [|p0 tl] eqn:Hp; [congruence|].
  rewrite occourrences_occ_from.
  pose proof (find_occ_from (fun i => is_slice_in_list (skipn i stream) (p0 :: tl))
                p0 stream 0) as Hfind.
  destruct (find _ (occ_from p0 0 stream)) as [i|].
  - destruct Hfind as (Hi & Hn & Hslice & Hleast).
    destruct (list_eqb (skipn i stream) (p0 :: tl)) eqn:Heq.
    + exfalso. apply list_eqb_eq in Heq.
      pose proof (f_equal (@length Z) Heq) as Hl. rewrite length_skipn in Hl.
      assert (i = 0%nat) as -> by lia. exact (Hnot Heq).
    + exists (pos + i)%nat. split.
      * f_equal. rewrite length_skipn. lia.
      * assert (i <> 0%nat).
        { intros ->. apply Hnot. simpl in Hslice.
          now apply is_slice_same_length. }
        split; [lia|].
        destruct (Nat.le_gt_cases (pos + i) o) as [|Hgt]; [assumption|exfalso].
        destruct Hpartial as (Hs & Hh); [lia|].
        rewrite (Hleast (o - pos)%nat) in Hs; [discriminate|lia|exact Hh].
  - exists (pos + length stream)%nat. split; [reflexivity|].
    split; [simpl length in *; lia|].
    destruct (Nat.le_gt_cases (pos + length stream) o) as [|Hgt]; [assumption|exfalso].
    destruct Hpartial as (Hs & Hh); [lia|].
    rewrite (Hfind (o - pos)%nat) in Hs; [discriminate|lia|exact Hh].
Qed.

End FirstMatch.

Lemma search_loop_finds (data pattern : list Z) (o : nat) :
  pattern <> [] -> occurs_at data pattern o ->
  forall fuel pos,
    (pos <= o)%nat ->
    (forall o', (pos <= o' < o)%nat -> ~ occurs_at data pattern o') ->
    (o - pos < fuel)%nat ->
    search_loop fuel data pattern (length data) pos = Ret (Z.of_nat o).
Proof.
  intros Hne Hocc. pose proof (occurs_in_bounds data pattern o Hne Hocc) as Hb.
  assert (0 < length pattern)%nat by (destruct pattern; [congruence|simpl; lia]).
  induction fuel as [|fuel IH]; intros pos Hpos Hmin Hfuel; [lia|].
  simpl. replace (pos <? length data)%nat with true
    by (symmetry; apply Nat.ltb_lt; lia).
  destruct (Nat.eq_dec pos o) as [->|Hlt].
  - now rewrite search_step_at_match.
  - destruct (search_step_before_match data pattern o Hne Hocc pos) as (c & -> & Hc);
      [lia|assumption|].
    apply IH; [lia| |lia].
    intros o' Ho'. apply Hmin. lia.
Qed.

(** An offset returned by one iteration is the cursor of that iteration,
    and the pattern occurs there. *)
Lemma search_step_found (data pattern : list Z) (pos : nat) (z : Z) :
  search_step data pattern pos = Found z ->
  z = Z.of_nat pos /\ occurs_at data pattern pos.
Proof.
  unfold search_step. rewrite scan_occourrences_find.
  set (stream := firstn (length pattern) (skipn pos data)).
  destruct (find _ (occourrences pattern stream)) as [i|] eqn:Hfind; [|discriminate].
  destruct (list_eqb (skipn i stream) pattern) eqn:Heq; [|discriminate].
  intros [= <-]. apply list_eqb_eq in Heq.
  assert (Hlen : (length stream <= length pattern)%nat)
    by (unfold stream; rewrite length_firstn; lia).
  assert (Hi : (i < length stream)%nat).
  { apply find_some in Hfind as (Hin & _).
    destruct pattern as [|p0 tl]; [contradiction|].
    rewrite occourrences_occ_from in Hin. unfold occ_from in Hin.
    apply in_map_iff in Hin as ((j & x) & <- & Hin).
    apply filter_In in Hin as (Hin & _). apply in_combine_l in Hin.
    apply in_seq in Hin. simpl. lia. }
  pose proof (f_equal (@length Z) Heq) as Hl. rewrite length_skipn in Hl.
  assert (i = 0%nat) as -> by lia. simpl in Heq.
  split; [rewrite Heq; lia|exact Heq].
Qed.

(** Whatever [stream_search] returns is the not-found sentinel or an
    offset at which the pattern does occur. *)
Lemma search_loop_sound (data pattern : list Z) (end_position : nat) :
  forall fuel pos z,
    search_loop fuel data pattern end_position pos = Ret z ->
    z = -1 \/ exists o, z = Z.of_nat o /\ occurs_at data pattern o.
Proof.
  induction fuel as [|fuel IH]; intros pos z H; [discriminate|].
  simpl in H. destruct (pos <? end_position)%nat; [|injection H as <-; now left].
  destruct (search_step data pattern pos) as [o|c] eqn:Hstep.
  - injection H as <-. apply search_step_found in Hstep as (-> & Hocc).
    right. now exists pos.
  - now apply IH in H.
Qed.

Lemma stream_search_sound (fuel : nat) (data : list Z) (pattern : string)
    (start z : Z) :
  stream_search fuel data pattern start = Ret z ->
  z = -1 \/ exists o, z = Z.of_nat o /\ occurs_at data (str_encode pattern) o.
Proof.
  unfold stream_search. destruct (start <? 0); [discriminate|].
  apply search_loop_sound.
Qed.

Lemma str_encode_nil (pattern : string) : pattern <> EmptyString -> str_encode pattern <> [].
Proof. destruct pattern; [congruence|discriminate]. Qed.

(** C2, for a pattern that is not empty: when the pattern occurs in the
    document at or after [start], [stream_search] returns the least offset
    [o >= start] with [bytes[o, o+len(P)) == P], wherever the match ends
    (the end of the file included), once given as many iterations as the
    document has bytes. *)
Theorem stream_search_first_match (data : list Z) (pattern : string) (start o : nat) :
  pattern <> EmptyString ->
  occurs_at data (str_encode pattern) o ->
  (start <= o)%nat ->
  (forall o', (start <= o' < o)%nat -> ~ occurs_at data (str_encode pattern) o') ->
  forall fuel, (length data <= fuel)%nat ->
    stream_search fuel data pattern (Z.of_nat start) = Ret (Z.of_nat o).
Proof.
  intros Hne Hocc Hstart Hmin fuel Hfuel. unfold stream_search.
  replace (Z.of_nat start <? 0) with false by (symmetry; apply Z.ltb_ge; lia).
  rewrite Nat2Z.id.
  pose proof (occurs_in_bounds _ _ _ (str_encode_nil _ Hne) Hocc) as Hb.
  assert (0 < length (str_encode pattern))%nat.
  { pose proof (str_encode_nil _ Hne). destruct (str_encode pattern); [congruence|simpl; lia]. }
  apply search_loop_finds; auto using str_encode_nil. lia.
Qed.

(** The match of C2 may end at the last byte of the file. *)
Lemma stream_search_first_match_at_eof :
  occurs_at ends_with_array (str_encode "[]") 5
  /\ stream_search 7 ends_with_array "[]" 0 = Ret 5.
Proof.
  assert (Hocc : occurs_at ends_with_array (str_encode "[]") 5) by reflexivity.
  split; [exact Hocc|].
  apply (stream_search_first_match ends_with_array "[]" 0 5).
  - discriminate.
  - exact Hocc.
  - lia.
  - intros o' Ho' H. unfold occurs_at in H.
    assert (o' = 0 \/ o' = 1 \/ o' = 2 \/ o' = 3 \/ o' = 4)%nat as [->|[->|[->|[->| ->]]]] by lia;
      vm_compute in H; discriminate.
  - simpl. lia.
Defined.

(** C3 fails on the code: when the file ends in a piece of the pattern,
    the cursor is moved back to where the window began and the loop never
    ends.  Here the file holds six bytes, an opening brace, a quote and
    the word text; the pattern [textList] occurs nowhere in it, and the
    call is still running after any number of iterations. *)
Theorem stream_search_partial_at_eof :
  (forall o, ~ occurs_at cut_short (str_encode "textList") o)
  /\ forall fuel, stream_search fuel cut_short "textList" 0 = OutOfFuel.
Proof.
  split.
  - intros o H. apply (f_equal (@length Z)) in H.
    rewrite length_firstn, length_skipn in H.
    change (length cut_short) with 6%nat in H.
    change (length (str_encode "textList")) with 8%nat in H. lia.
  - assert (Hloop : forall n,
              search_loop n cut_short (str_encode "textList") 6 2 = OutOfFuel).
    { induction n as [|n IH]; [reflexivity|]. simpl search_loop.
      change (search_step cut_short (str_encode "textList") 2) with (Cursor 2).
      exact IH. }
    intros [|fuel]; [reflexivity|].
    unfold stream_search. simpl search_loop.
    change (search_step cut_short (str_encode "textList") (Z.to_nat 0))
      with (Cursor 2).
    apply Hloop.
Qed.

(** C2 as stated fails for the empty pattern, which occurs at offset 0 of
    every document: the window is empty, the cursor never moves and the
    call does not return. *)
Lemma stream_search_empty_pattern :
  occurs_at [97] (str_encode EmptyString) 0
  /\ forall fuel, stream_search fuel [97] EmptyString 0 = OutOfFuel.
Proof.
  split; [reflexivity|].
  induction fuel as [|fuel IH]; [reflexivity|]. exact IH.
Qed.

End LocatorProperties.

(** ** Text-mode files *)

Module TextIOProperties.

Import TextIO.

Ltac bool_hyps :=
  repeat match goal with
  | H : _ && _ = true |- _ => apply andb_true_iff in H; destruct H
  | H : _ || _ = true |- _ => apply orb_true_iff in H; destruct H
  | H : (_ <=? _) = true |- _ => apply Z.leb_le in H
  | H : (_ =? _) = true |- _ => apply Z.eqb_eq in H
  | H : (_ <=? _) = false |- _ => apply Z.leb_gt in H
  | H : (_ =? _) = false |- _ => apply Z.eqb_neq in H
  end.

(** What the decoder hands out: one ASCII byte, or a longer group none of
    whose bytes is ASCII. *)
Lemma next_char_Char (bs : list Z) (c : char) (rest : list Z) :
  next_char bs = Char c rest ->
  bs = c ++ rest
  /\ ((exists b, c = [b] /\ 0 <= b <= 127)
      \/ ((2 <= length c)%nat /\ Forall (fun b => 128 <= b) c)).
Proof.
  unfold next_char, lead3, lead4, cont, in_range.
  destruct bs as [|b0 r0]; [discriminate|].
  destruct ((0 <=? b0) && (b0 <=? 127)) eqn:E0.
  { intros [= <- <-]. split; [reflexivity|]. left. exists b0. bool_hyps. auto. }
  destruct r0 as [|b1 r1]; [discriminate|].
  match goal with |- context [if ?t then Char [b0; b1] r1 else _] => destruct t eqn:E1 end.
  { intros [= <- <-]. split; [reflexivity|]. right. bool_hyps.
    split; [simpl; lia|]. repeat constructor; lia. }
  destruct r1 as [|b2 r2]; [discriminate|].
  match goal with |- context [if ?t then Char [b0; b1; b2] r2 else _] => destruct t eqn:E2 end.
  { intros [= <- <-]. split; [reflexivity|]. right. bool_hyps;
    (split; [simpl; lia|]); repeat constructor; lia. }
  destruct r2 as [|b3 r3]; [discriminate|].
  match goal with |- context [if ?t then Char [b0; b1; b2; b3] r3 else _] => destruct t eqn:E3 end.
  { intros [= <- <-]. split; [reflexivity|]. right. bool_hyps;
    (split; [simpl; lia|]); repeat constructor; lia. }
  discriminate.
Qed.

Lemma next_char_Eof (bs : list Z) : next_char bs = Eof -> bs = [].
Proof.
  unfold next_char. destruct bs as [|b0 r0]; [reflexivity|].
  repeat match goal with
         | |- context [if ?t then _ else _] => destruct t
         | |- context [match ?l with [] => _ | _ :: _ => _ end] => destruct l
         end; discriminate.
Qed.

Lemma next_char_length (bs : list Z) (c : char) (rest : list Z) :
  next_char bs = Char c rest -> (length rest < length bs)%nat.
Proof.
  intros H. apply next_char_Char in H as (-> & [(b & -> & _)|(Hl & _)]);
    rewrite length_app; simpl; lia.
Qed.

(** More characters asked for than there are bytes: everything is read. *)
Lemma decode_chars_enough (n : nat) :
  forall m bs, (length bs <= n)%nat -> (length bs <= m)%nat ->
               decode_chars n bs = decode_chars m bs.
Proof.
  induction n as [|n IH]; intros m bs Hn Hm.
  - destruct bs; [|simpl in Hn; lia]. destruct m; reflexivity.
  - destruct m as [|m].
    + destruct bs; [reflexivity|simpl in Hm; lia].
    + simpl. destruct (next_char bs) as [|c rest|] eqn:E; try reflexivity.
      apply next_char_length in E. f_equal. apply IH; lia.
Qed.

Lemma decode_chars_S (n : nat) (bs : list Z) :
  decode_chars (S n) bs =
    match next_char bs with
    | Eof => Some []
    | Malformed => None
    | Char c rest => option_map (cons c) (decode_chars n rest)
    end.
Proof. reflexivity. Qed.

Lemma utf8_next (bs : list Z) :
  utf8 bs -> bs <> [] ->
  exists c rest, next_char bs = Char c rest /\ utf8 rest.
Proof.
  unfold utf8. intros H Hne. destruct bs as [|b r]; [congruence|].
  simpl length in H. rewrite decode_chars_S in H.
  destruct (next_char (b :: r)) as [|c rest|] eqn:E.
  - apply next_char_Eof in E. discriminate.
  - exists c, rest. split; [reflexivity|].
    pose proof (next_char_length _ _ _ E) as Hl. simpl in Hl.
    rewrite (decode_chars_enough (length rest) (length r) rest) by lia.
    destruct (decode_chars (length r) rest); [discriminate|]. now simpl in H.
  - congruence.
Qed.

Lemma char_eqb_eq (a b : char) : char_eqb a b = true <-> a = b.
Proof.
  revert b. induction a as [|x a IH]; intros [|y b]; simpl;
    try (split; [discriminate|congruence]); [tauto|].
  rewrite andb_true_iff, Z.eqb_eq, IH. split.
  - intros [-> ->]. reflexivity.
  - intros [= -> ->]. auto.
Qed.

Lemma text_eqb_single (c d : char) : text_eqb [c] [d] = char_eqb c d.
Proof. simpl. now rewrite andb_true_r. Qed.

(** What [f.read()] returns encodes back to the bytes that were read. *)
Lemma decode_chars_encode (n : nat) :
  forall bs t, decode_chars n bs = Some t -> (length bs <= n)%nat -> encode t = bs.
Proof.
  induction n as [|n IH]; intros bs t H Hn.
  - destruct bs; [|simpl in Hn; lia]. now injection H as <-.
  - rewrite decode_chars_S in H. destruct (next_char bs) as [|c rest|] eqn:E.
    + injection H as <-. apply next_char_Eof in E. now subst.
    + destruct (decode_chars n rest) as [t'|] eqn:E'; [|discriminate].
      injection H as <-. pose proof (next_char_length _ _ _ E).
      apply next_char_Char in E as (-> & _).
      unfold encode. simpl. f_equal. apply (IH rest t' E'). lia.
    + discriminate.
Qed.

Lemma decode_chars_count (n : nat) :
  forall bs t, decode_chars n bs = Some t -> (length t <= n)%nat.
Proof.
  induction n as [|n IH]; intros bs t H.
  - injection H as <-. simpl. lia.
  - rewrite decode_chars_S in H. destruct (next_char bs) as [|c rest|].
    + injection H as <-. simpl. lia.
    + destruct (decode_chars n rest) as [t'|] eqn:E; [|discriminate].
      injection H as <-. simpl. specialize (IH _ _ E). lia.
    + discriminate.
Qed.

Lemma read_all_utf8 (data : list Z) (p : nat) :
  utf8 (skipn p data) -> (p <= length data)%nat ->
  exists t, read_all (mkFile data p) = Ret (t, mkFile data (length data))
            /\ encode t = skipn p data
            /\ (length t <= length data - p)%nat.
Proof.
  intros Hutf Hp. unfold utf8 in Hutf. unfold read_all, read. simpl contents. simpl cursor.
  destruct (decode_chars (length (skipn p data)) (skipn p data)) as [t|] eqn:E; [|congruence].
  exists t. pose proof (decode_chars_encode _ _ _ E (Nat.le_refl _)) as Henc.
  split; [|split; [exact Henc|]].
  - rewrite Henc, length_skipn. do 3 f_equal. lia.
  - apply decode_chars_count in E. now rewrite length_skipn in E.
Qed.

Lemma write_bytes_inside (data : list Z) (p : nat) (bs : list Z) :
  (p <= length data)%nat ->
  write_bytes data p bs = firstn p data ++ bs ++ skipn (p + length bs) data.
Proof.
  intros Hp. unfold write_bytes. now replace (p - length data)%nat with 0%nat by lia.
Qed.

Lemma write_bytes_length (data : list Z) (p : nat) (bs : list Z) :
  (p <= length data)%nat -> (p + length bs <= length (write_bytes data p bs))%nat.
Proof.
  intros Hp. rewrite write_bytes_inside by assumption.
  rewrite !length_app, length_firstn. lia.
Qed.

Lemma skipn_append (a b : list Z) : skipn (length a) (a ++ b) = b.
Proof. now rewrite skipn_app, Nat.sub_diag, skipn_all. Qed.

Lemma firstn_append (a b : list Z) : firstn (length a) (a ++ b) = a.
Proof. now rewrite firstn_app, Nat.sub_diag, firstn_all, firstn_0, app_nil_r. Qed.

(** Overwriting [b] right after a prefix [x] of known length. *)
Lemma overwrite_after (x y b : list Z) (n : nat) :
  n = length x ->
  firstn n (x ++ y) ++ b ++ skipn (n + length b) (x ++ y)
  = x ++ b ++ skipn (length b) y.
Proof.
  intros ->. rewrite firstn_append.
  now rewrite (Nat.add_comm (length x)), <- skipn_skipn, skipn_append.
Qed.

(** Two writes in a row are one write of the two texts. *)
Lemma write_bytes_twice (data : list Z) (p : nat) (a b : list Z) :
  (p <= length data)%nat ->
  write_bytes (write_bytes data p a) (p + length a) b = write_bytes data p (a ++ b).
Proof.
  intros Hp.
  rewrite (write_bytes_inside (write_bytes data p a)) by now apply write_bytes_length.
  rewrite !write_bytes_inside by assumption.
  assert (Hf : length (firstn p data) = p) by (rewrite length_firstn; lia).
  rewrite (app_assoc (firstn p data) a).
  rewrite overwrite_after by (rewrite length_app; lia).
  rewrite skipn_skipn, length_app, <- !app_assoc.
  replace (length b + (p + length a))%nat with (p + (length a + length b))%nat by lia.
  reflexivity.
Qed.

Lemma write_nothing (f : file) :
  (cursor f <= length (contents f))%nat -> write [] f = f.
Proof.
  intros Hc. destruct f as [data p]. unfold write, encode. simpl in *.
  rewrite write_bytes_inside by assumption. simpl.
  now rewrite !Nat.add_0_r, firstn_skipn.
Qed.

Lemma write_twice (f : file) (s t : text) :
  (cursor f <= length (contents f))%nat ->
  write t (write s f) = write (s ++ t) f.
Proof.
  intros Hc. destruct f as [data p]. unfold write, encode. simpl in *.
  rewrite concat_app, write_bytes_twice, length_app by assumption.
  f_equal. lia.
Qed.

Lemma write_cursor (f : file) (s : text) :
  (cursor f <= length (contents f))%nat ->
  (cursor (write s f) <= length (contents (write s f)))%nat.
Proof. intros Hc. destruct f as [data p]. simpl in *. now apply write_bytes_length. Qed.

Lemma readline_split (limit : nat) (t : text) :
  fst (readline limit t) ++ snd (readline limit t) = t
  /\ (fst (readline limit t) = [] -> (0 < limit)%nat -> t = []).
Proof.
  revert t. induction limit as [|limit IH]; intros t.
  - split; [reflexivity|lia].
  - destruct t as [|c t]; [split; reflexivity|]. simpl.
    destruct (char_eqb c [10]); [split; [reflexivity|discriminate]|].
    specialize (IH t). destruct (readline limit t) as [line rest]. simpl in *.
    split; [f_equal; apply IH|discriminate].
Qed.

Lemma decode_ascii (t : text) :
  ascii_text t = true ->
  forall n, (length t <= n)%nat -> decode_chars n (encode t) = Some t.
Proof.
  induction t as [|c t IH]; intros Ha n Hn.
  - destruct n; reflexivity.
  - simpl in Ha. apply andb_true_iff in Ha as (Hc & Ha).
    destruct c as [|b [|? ?]]; try discriminate.
    destruct n as [|n]; [simpl in Hn; lia|].
    unfold encode. simpl concat. rewrite decode_chars_S. unfold next_char.
    rewrite Hc. fold (encode t). rewrite IH; [reflexivity|assumption|simpl in Hn; lia].
Qed.

(** [n] ASCII bytes under the cursor decode to [n] characters of one
    byte each. *)
Lemma decode_chars_ascii (n : nat) :
  forall bs, forallb (in_range 0 127) (firstn n bs) = true ->
             decode_chars n bs = Some (map (fun b => [b]) (firstn n bs)).
Proof.
  induction n as [|n IH]; intros bs H; [reflexivity|].
  rewrite decode_chars_S. destruct bs as [|b bs]; [reflexivity|].
  simpl in H. apply andb_true_iff in H as (Hb & H).
  unfold next_char. rewrite Hb. rewrite (IH bs H). reflexivity.
Qed.

Lemma encode_ascii_length (t : text) :
  ascii_text t = true -> length (encode t) = length t.
Proof.
  induction t as [|c t IH]; intros Ha; [reflexivity|].
  simpl in Ha. apply andb_true_iff in Ha as (Hc & Ha).
  destruct c as [|b [|? ?]]; try discriminate.
  unfold encode in *. simpl. now rewrite IH.
Qed.

Lemma seek_nat (f : file) (p : nat) : seek f (Z.of_nat p) = Ret (mkFile (contents f) p).
Proof.
  unfold seek. replace (Z.of_nat p <? 0) with false by (symmetry; apply Z.ltb_ge; lia).
  now rewrite Nat2Z.id.
Qed.

Lemma read_contents (n : nat) (f f' : file) (t : text) :
  read n f = Ret (t, f') -> contents f' = contents f.
Proof.
  unfold read. destruct (decode_chars n _); [|discriminate]. now intros [= _ <-].
Qed.

Lemma seek_contents (f f' : file) (pos : Z) :
  seek f pos = Ret f' -> contents f' = contents f.
Proof. unfold seek. destruct (pos <? 0); [discriminate|]. now intros [= <-]. Qed.

End TextIOProperties.

(** ** The bracket-balance span finder *)

Module BracketsProperties.

Import TextIO Brackets Documents TextIOProperties.

Section Span.

Variables (data : list Z) (ob cb : Z).
Hypothesis Hob : 0 <= ob <= 127.
Hypothesis Hcb : 0 <= cb <= 127.
Hypothesis Hneq : ob <> cb.


Lemma count_app (b : Z) (l1 l2 : list Z) :
  count b (l1 ++ l2) = count b l1 + count b l2.
Proof. unfold count. rewrite count_occ_app. lia. Qed.

Lemma count_high (b : Z) (c : list Z) :
  0 <= b <= 127 -> Forall (fun x => 128 <= x) c -> count b c = 0.
Proof.
  intros Hb Hc. unfold count.
  rewrite (proj1 (count_occ_not_In Z.eq_dec c b)); [reflexivity|].
  intros Hin. rewrite Forall_forall in Hc. specialize (Hc b Hin). lia.
Qed.

Lemma delta_high (c : list Z) : Forall (fun x => 128 <= x) c -> delta ob cb c = 0.
Proof. intros Hc. unfold Brackets.delta. rewrite !count_high by assumption. reflexivity. Qed.

Lemma delta_bounds (c : char) (bs rest : list Z) :
  next_char bs = Char c rest -> -1 <= delta ob cb c <= 1.
Proof.
  intros H. apply next_char_Char in H as (_ & [(b & -> & _)|(_ & Hc)]).
  - unfold Brackets.delta, count. simpl.
    destruct (Z.eq_dec b ob), (Z.eq_dec b cb); lia.
  - rewrite delta_high by assumption. lia.
Qed.

Lemma dep_0 (d : Z) (rest : list Z) : dep ob cb d rest 0 = d.
Proof. unfold Brackets.dep, count. simpl. lia. Qed.

Lemma dep_after (c rest : list Z) (d : Z) (j : nat) :
  (length c <= j)%nat ->
  dep ob cb d (c ++ rest) j = dep ob cb (d + delta ob cb c) rest (j - length c).
Proof.
  intros Hj. unfold Brackets.dep, Brackets.delta.
  rewrite firstn_app, (firstn_all2 c) by lia. rewrite !count_app. lia.
Qed.

Lemma dep_inside (c rest : list Z) (d : Z) (j : nat) :
  (j <= length c)%nat -> Forall (fun x => 128 <= x) c -> dep ob cb d (c ++ rest) j = d.
Proof.
  intros Hj Hc. unfold Brackets.dep. rewrite firstn_app.
  replace (j - length c)%nat with 0%nat by lia. rewrite firstn_0, app_nil_r.
  assert (Hf : Forall (fun x => 128 <= x) (firstn j c)).
  { apply Forall_forall. intros x Hx. rewrite Forall_forall in Hc.
    apply Hc. rewrite <- (firstn_skipn j c). apply in_or_app. now left. }
  rewrite !count_high by assumption. lia.
Qed.

Lemma skipn_step (p : nat) (c rest : list Z) :
  skipn p data = c ++ rest -> skipn (p + length c) data = rest.
Proof.
  intros H. rewrite Nat.add_comm, <- skipn_skipn, H, skipn_app, Nat.sub_diag.
  rewrite skipn_all. reflexivity.
Qed.

(** One iteration of the loop on a decoded character. *)
Lemma brackets_loop_step (fuel p : nat) (d : Z) (c : char) (rest : list Z) :
  next_char (skipn p data) = Char c rest ->
  d <> 0 ->
  brackets_loop (S fuel) (mkFile data p) [[ob]] [[cb]] d =
    brackets_loop fuel (mkFile data (p + length c)) [[ob]] [[cb]] (d + delta ob cb c).
Proof.
  intros Hc Hd. simpl brackets_loop.
  replace (d =? 0) with false by (symmetry; now apply Z.eqb_neq).
  unfold read. simpl contents. simpl cursor. rewrite decode_chars_S, Hc.
  simpl option_map. unfold bind, encode. simpl concat. rewrite app_nil_r.
  rewrite !text_eqb_single. f_equal.
  apply next_char_Char in Hc as (_ & [(b & -> & _)|(Hl & Hh)]).
  - unfold Brackets.delta, count. simpl.
    rewrite !andb_true_r.
    destruct (Z.eq_dec b ob) as [->|Hbo].
    + rewrite Z.eqb_refl. destruct (Z.eq_dec ob cb); [contradiction|lia].
    + replace (b =? ob) with false by (symmetry; now apply Z.eqb_neq).
      destruct (Z.eq_dec b cb) as [->|Hbc].
      * rewrite Z.eqb_refl. lia.
      * replace (b =? cb) with false by (symmetry; now apply Z.eqb_neq). lia.
  - rewrite delta_high by assumption.
    destruct c as [|x [|y c]]; simpl in Hl; try lia.
    simpl. rewrite !andb_false_r. lia.
Qed.

Lemma brackets_loop_eof (fuel p : nat) (d : Z) :
  next_char (skipn p data) = Eof ->
  d <> 0 ->
  brackets_loop (S fuel) (mkFile data p) [[ob]] [[cb]] d =
    brackets_loop fuel (mkFile data p) [[ob]] [[cb]] d.
Proof.
  intros Hc Hd. simpl brackets_loop.
  replace (d =? 0) with false by (symmetry; now apply Z.eqb_neq).
  unfold read. simpl contents. simpl cursor. rewrite decode_chars_S, Hc.
  unfold bind, encode. simpl. now rewrite Nat.add_0_r.
Qed.

(** The loop on a span whose depth returns to 0: it stops one past the
    byte that first brings the depth to 0. *)
Lemma brackets_loop_balanced :
  forall fuel p d,
    0 < d ->
    utf8 (skipn p data) ->
    (exists k, (k <= length (skipn p data))%nat /\ dep ob cb d (skipn p data) k = 0) ->
    (length (skipn p data) < fuel)%nat ->
    exists m,
      (0 < m <= length (skipn p data))%nat
      /\ brackets_loop fuel (mkFile data p) [[ob]] [[cb]] d = Ret (mkFile data (p + m))
      /\ dep ob cb d (skipn p data) m = 0
      /\ (forall j, (j < m)%nat -> 0 < dep ob cb d (skipn p data) j)
      /\ nth_error (skipn p data) (m - 1) = Some cb.
Proof.
  induction fuel as [|fuel IH]; intros p d Hd Hutf (k & Hk & Hzero) Hfuel; [lia|].
  destruct (skipn p data) as [|b0 r0] eqn:Hrest.
  { exfalso. destruct k; [|simpl in Hk; lia]. rewrite dep_0 in Hzero. lia. }
  destruct (utf8_next (b0 :: r0) Hutf ltac:(discriminate)) as (c & rest & Hc & Hutf').
  pose proof (delta_bounds _ _ _ Hc) as Hdelta.
  pose proof (next_char_Char _ _ _ Hc) as (Hsplit & Hshape).
  assert (Hskip : skipn (p + length c) data = rest).
  { apply skipn_step. now rewrite Hrest. }
  assert (Hlen : (0 < length c)%nat).
  { destruct Hshape as [(b & -> & _)|(Hl & _)]; simpl; lia. }
  assert (Hlens : length (b0 :: r0) = (length c + length rest)%nat).
  { rewrite Hsplit. apply length_app. }
  rewrite <- Hrest in Hc. rewrite (brackets_loop_step fuel p d c rest Hc) by lia.
  rewrite Hsplit in *. clear Hsplit.
  (* the depth inside the character just read *)
  assert (Hin : forall j, (j < length c)%nat -> dep ob cb d (c ++ rest) j = d).
  { intros j Hj. destruct Hshape as [(b & -> & _)|(_ & Hh)].
    - simpl in Hj. assert (j = 0%nat) as -> by lia. apply dep_0.
    - apply dep_inside; [lia|assumption]. }
  assert (Hkc : (length c <= k)%nat).
  { destruct (Nat.le_gt_cases (length c) k); [assumption|].
    rewrite Hin in Hzero by assumption. lia. }
  destruct (Z.eq_dec (d + delta ob cb c) 0) as [Hz|Hnz].
  - (* the character closes the span *)
    exists (length c). rewrite Hz.
    assert (Hone : length c = 1%nat /\ c = [cb]).
    { destruct Hshape as [(b & -> & _)|(_ & Hh)].
      - split; [reflexivity|]. unfold Brackets.delta, count in Hz. simpl in Hz.
        destruct (Z.eq_dec b ob), (Z.eq_dec b cb); try lia. congruence.
      - rewrite delta_high in Hz by assumption. lia. }
    destruct Hone as (Hone & ->). simpl length in *.
    split; [lia|]. split.
    { destruct fuel; [lia|reflexivity]. }
    split.
    { rewrite (dep_after [cb] rest d 1) by (simpl; lia).
      simpl length. rewrite Nat.sub_diag, dep_0. exact Hz. }
    split.
    { intros j Hj. rewrite Hin by lia. lia. }
    reflexivity.
  - (* the scan goes on after the character *)
    destruct (IH (p + length c)%nat (d + delta ob cb c)) as (m & Hm & Hrun & Hm0 & Hbefore & Hlast).
    + lia.
    + now rewrite Hskip.
    + rewrite Hskip. exists (k - length c)%nat. split; [lia|].
      rewrite <- dep_after by lia. exact Hzero.
    + rewrite Hskip. lia.
    + rewrite Hskip in *. exists (length c + m)%nat.
      split; [lia|]. split.
      { rewrite Hrun. now rewrite Nat.add_assoc. }
      split.
      { rewrite dep_after by lia.
        replace (length c + m - length c)%nat with m by lia. exact Hm0. }
      split.
      { intros j Hj. destruct (Nat.lt_ge_cases j (length c)).
        - rewrite Hin by assumption. lia.
        - rewrite dep_after by lia. apply Hbefore. lia. }
      rewrite nth_error_app2 by lia.
      replace (length c + m - 1 - length c)%nat with (m - 1)%nat by lia.
      exact Hlast.
Qed.

(** The loop on a span whose depth never returns to 0: reading past the
    end of the file changes nothing, and the loop goes on. *)
Lemma brackets_loop_unbalanced :
  forall fuel p d,
    0 < d ->
    utf8 (skipn p data) ->
    (forall k, (k <= length (skipn p data))%nat -> dep ob cb d (skipn p data) k <> 0) ->
    brackets_loop fuel (mkFile data p) [[ob]] [[cb]] d = OutOfFuel.
Proof.
  induction fuel as [|fuel IH]; intros p d Hd Hutf Hnever; [reflexivity|].
  destruct (skipn p data) as [|b0 r0] eqn:Hrest.
  - rewrite brackets_loop_eof by (rewrite ?Hrest; simpl; auto; lia).
    apply IH; rewrite ?Hrest; auto.
  - destruct (utf8_next (b0 :: r0) Hutf ltac:(discriminate)) as (c & rest & Hc & Hutf').
    pose proof (delta_bounds _ _ _ Hc) as Hdelta.
    pose proof (next_char_Char _ _ _ Hc) as (Hsplit & Hshape).
    assert (Hskip : skipn (p + length c) data = rest).
    { apply skipn_step. now rewrite Hrest. }
    rewrite <- Hrest in Hc. rewrite (brackets_loop_step fuel p d c rest Hc) by lia.
    rewrite Hsplit in *.
    assert (Hnext : d + delta ob cb c <> 0).
    { specialize (Hnever (length c)). rewrite dep_after, Nat.sub_diag, dep_0 in Hnever by lia.
      apply Hnever. rewrite length_app. lia. }
    apply IH; rewrite ?Hskip; auto; [lia|].
    intros k Hk. specialize (Hnever (length c + k)%nat).
    rewrite dep_after in Hnever by lia.
    replace (length c + k - length c)%nat with k in Hnever by lia.
    apply Hnever. rewrite length_app. lia.
Qed.

End Span.

Lemma skipn_nth_error (data : list Z) (n : nat) (x : Z) :
  nth_error data n = Some x -> skipn n data = x :: skipn (S n) data.
Proof.
  revert n. induction data as [|y data IH]; intros [|n] H; simpl in *; try discriminate.
  - now injection H as ->.
  - now apply IH.
Qed.

Lemma naive_depth_dep (data : list Z) (ob cb : Z) (start k : nat) :
  naive_depth data ob cb start k = dep ob cb 1 (skipn (S start) data) (k - S start).
Proof. reflexivity. Qed.

(** Consuming the opener under the cursor. *)
Lemma read_opener (data : list Z) (ob : Z) (start : nat) :
  0 <= ob <= 127 ->
  nth_error data start = Some ob ->
  read 1 (mkFile data start) = Ret ([[ob]], mkFile data (S start)).
Proof.
  intros Hob Hnth. unfold read. simpl contents. simpl cursor.
  rewrite (skipn_nth_error _ _ _ Hnth), decode_chars_S. unfold next_char, in_range.
  replace ((0 <=? ob) && (ob <=? 127)) with true
    by (symmetry; apply andb_true_iff; split; apply Z.leb_le; lia).
  simpl. now rewrite Nat.add_1_r.
Qed.

Lemma utf8_after_opener (data : list Z) (ob : Z) (start : nat) :
  0 <= ob <= 127 ->
  nth_error data start = Some ob ->
  utf8 (skipn start data) -> utf8 (skipn (S start) data).
Proof.
  intros Hob Hnth Hutf. rewrite (skipn_nth_error _ _ _ Hnth) in Hutf.
  destruct (utf8_next _ Hutf ltac:(discriminate)) as (c & rest & Hc & Hrest).
  unfold next_char, in_range in Hc.
  replace ((0 <=? ob) && (ob <=? 127)) with true in Hc
    by (symmetry; apply andb_true_iff; split; apply Z.leb_le; lia).
  now injection Hc as <- <-.
Qed.


(** X18: on a file without carriage returns, UTF-8 from the cursor on,
    with the cursor on an opening delimiter of a span whose naive depth
    returns to 0 before the end of the file, [find_couple_brackets_end]
    returns an offset [e], one past a closing delimiter, at which the
    naive depth scan is 0 for the first time; as many iterations as the
    file has bytes are enough. *)
Theorem find_couple_brackets_end_balanced (data : list Z) (ob cb : Z) (start : nat) :
  no_cr data = true ->
  0 <= ob <= 127 -> 0 <= cb <= 127 -> ob <> cb ->
  nth_error data start = Some ob ->
  utf8 (skipn start data) ->
  (exists k, (start < k <= length data)%nat /\ naive_depth data ob cb start k = 0) ->
  exists e,
    (start < e <= length data)%nat
    /\ (forall fuel reset, (length data <= fuel)%nat ->
          find_couple_brackets_end fuel (mkFile data start) [[ob]] [[cb]] reset
          = Ret (Z.of_nat e, mkFile data (if reset then start else e)))
    /\ naive_depth data ob cb start e = 0
    /\ (forall k, (start < k < e)%nat -> naive_depth data ob cb start k <> 0)
    /\ nth_error data (e - 1) = Some cb.
Proof.
  intros _ Hob Hcb Hneq Hnth Hutf (k & Hk & Hzero).
  assert (Hstart : (start < length data)%nat).
  { apply nth_error_Some. congruence. }
  assert (Hlen : length (skipn (S start) data) = (length data - S start)%nat)
    by apply length_skipn.
  destruct (brackets_loop_balanced data ob cb Hob Hcb Hneq
              (length data - start) (S start) 1)
    as (m & Hm & Hrun & Hm0 & Hbefore & Hlast).
  - lia.
  - exact (utf8_after_opener data ob start Hob Hnth Hutf).
  - exists (k - S start)%nat. split; [lia|]. now rewrite <- naive_depth_dep.
  - lia.
  - exists (S start + m)%nat. split; [lia|]. split.
    { intros fuel reset Hfuel. unfold find_couple_brackets_end.
      rewrite (read_opener data ob start Hob Hnth). unfold bind at 1.
      destruct (brackets_loop_balanced data ob cb Hob Hcb Hneq fuel (S start) 1)
        as (m' & Hm' & Hrun' & Hm0' & Hbefore' & _).
      - lia.
      - exact (utf8_after_opener data ob start Hob Hnth Hutf).
      - exists (k - S start)%nat. split; [lia|]. now rewrite <- naive_depth_dep.
      - lia.
      - assert (m' = m) as ->.
        { destruct (Nat.lt_trichotomy m' m) as [Hlt|[Heq|Hgt]]; [|assumption|].
          - specialize (Hbefore m' Hlt). lia.
          - specialize (Hbefore' m Hgt). lia. }
        rewrite Hrun'. unfold bind at 1. unfold tell. simpl cursor.
        destruct reset.
        + unfold seek. simpl contents.
          replace (Z.of_nat start <? 0) with false by (symmetry; apply Z.ltb_ge; lia).
          simpl. now rewrite Nat2Z.id.
        + reflexivity. }
    split.
    { rewrite naive_depth_dep. replace (S start + m - S start)%nat with m by lia.
      exact Hm0. }
    split.
    { intros j Hj. rewrite naive_depth_dep.
      specialize (Hbefore (j - S start)%nat ltac:(lia)). lia. }
    rewrite <- Hlast, nth_error_skipn. f_equal. lia.
Qed.

(** C5 fails on the code: when the depth never returns to 0 before the
    end of the file, [find_couple_brackets_end] raises nothing and returns
    nothing; at the end of the file [read(1)] yields the empty string and
    the loop goes on for ever. *)
Theorem find_couple_brackets_end_unbalanced (data : list Z) (ob cb : Z) (start : nat) :
  0 <= ob <= 127 -> 0 <= cb <= 127 -> ob <> cb ->
  nth_error data start = Some ob ->
  utf8 (skipn start data) ->
  (forall k, (start < k <= length data)%nat -> naive_depth data ob cb start k <> 0) ->
  forall fuel reset,
    find_couple_brackets_end fuel (mkFile data start) [[ob]] [[cb]] reset = OutOfFuel.
Proof.
  intros Hob Hcb Hneq Hnth Hutf Hnever fuel reset.
  assert (Hstart : (start < length data)%nat).
  { apply nth_error_Some. congruence. }
  unfold find_couple_brackets_end.
  rewrite (read_opener data ob start Hob Hnth). unfold bind at 1.
  rewrite (brackets_loop_unbalanced data ob cb Hob Hcb Hneq fuel (S start) 1).
  - reflexivity.
  - lia.
  - exact (utf8_after_opener data ob start Hob Hnth Hutf).
  - intros k Hk. rewrite length_skipn in Hk.
    specialize (Hnever (S start + k)%nat ltac:(lia)).
    rewrite naive_depth_dep in Hnever.
    now replace (S start + k - S start)%nat with k in Hnever by lia.
Qed.

(** X18 on a nested array that starts at offset 12. *)
Lemma find_couple_brackets_end_balanced_nested :
  exists e,
    (12 < e <= length nested)%nat
    /\ (forall fuel reset, (length nested <= fuel)%nat ->
          find_couple_brackets_end fuel (mkFile nested 12) [[91]] [[93]] reset
          = Ret (Z.of_nat e, mkFile nested (if reset then 12%nat else e)))
    /\ naive_depth nested 91 93 12 e = 0
    /\ (forall k, (12 < k < e)%nat -> naive_depth nested 91 93 12 k <> 0)
    /\ nth_error nested (e - 1) = Some 93.
Proof.
  apply (find_couple_brackets_end_balanced nested 91 93 12).
  - reflexivity.
  - lia.
  - lia.
  - discriminate.
  - reflexivity.
  - unfold utf8. vm_compute. discriminate.
  - exists 22%nat. split; [vm_compute; split; apply Nat.leb_le; reflexivity|reflexivity].
Defined.

(** C5 on a file that holds an array never closed: the call is still
    running after any number of iterations. *)
Lemma find_couple_brackets_end_unbalanced_unclosed :
  find_couple_brackets_end 1000 (mkFile unclosed 0) [[91]] [[93]] true = OutOfFuel.
Proof.
  apply (find_couple_brackets_end_unbalanced unclosed 91 93 0).
  - lia.
  - lia.
  - discriminate.
  - reflexivity.
  - unfold utf8. vm_compute. discriminate.
  - intros k Hk. change (length unclosed) with 4%nat in Hk.
    assert (k = 1 \/ k = 2 \/ k = 3 \/ k = 4)%nat as [->|[->|[->| ->]]] by lia;
      vm_compute; discriminate.
Defined.

End BracketsProperties.

(** ** The operations on [project.json] *)

Module RewriterProperties.

Import Locator TextIO Brackets Json Rewriter MiniJson Documents Examples.
Import LocatorProperties TextIOProperties BracketsProperties.

Lemma copy_lines_S (fuel : nat) (temp : text) (f : file) :
  copy_lines (S fuel) temp f =
    match fst (readline 2048 temp) with
    | [] => Ret f
    | _ :: _ => copy_lines fuel (snd (readline 2048 temp)) (write (fst (readline 2048 temp)) f)
    end.
Proof.
  change (copy_lines (S fuel) temp f) with
    (let (line, temp') := readline 2048 temp in
     match line with
     | [] => Ret f
     | _ :: _ => copy_lines fuel temp' (write line f)
     end).
  now destruct (readline 2048 temp).
Qed.

(** The transfer loop writes the whole side buffer. *)
Lemma copy_lines_all :
  forall fuel temp f,
    (length temp < fuel)%nat ->
    (cursor f <= length (contents f))%nat ->
    copy_lines fuel temp f = Ret (write temp f).
Proof.
  induction fuel as [|fuel IH]; intros temp f Hfuel Hc; [lia|].
  rewrite copy_lines_S. pose proof (readline_split 2048 temp) as (Hsplit & Hempty).
  destruct (fst (readline 2048 temp)) as [|c line] eqn:Hline.
  - rewrite Hempty by (auto; lia). now rewrite write_nothing.
  - rewrite IH.
    + rewrite write_twice by assumption. now rewrite Hsplit.
    + pose proof (f_equal (@length char) Hsplit) as Hl.
      rewrite length_app in Hl. cbn [length] in Hl. lia.
    + now apply write_cursor.
Qed.

(** C7: on a document that [json.load] accepts, whose compact
    serialisation is ASCII and is read back by the library as the same
    value, [optimize] leaves exactly that serialisation in the file, and a
    second [optimize] leaves the file as the first one did. *)
Theorem optimize_idempotent `{JsonLib} (project : list Z) (t : text) (v : json) :
  decode_chars (length project) project = Some t ->
  loads t = Some v ->
  ascii_text (dumps_compact v) = true ->
  loads (dumps_compact v) = Some v ->
  optimize project = Ret (encode (dumps_compact v))
  /\ optimize (encode (dumps_compact v)) = Ret (encode (dumps_compact v)).
Proof.
  intros Hdec Hload Hascii Hround.
  assert (Hrun : forall data t', decode_chars (length data) data = Some t' ->
                   loads t' = Some v ->
                   optimize data = Ret (encode (dumps_compact v))).
  { intros data t' Hd Hl. unfold optimize, read_all, read, open_file.
    simpl contents. simpl cursor. simpl skipn. rewrite Hd. unfold bind at 1.
    unfold json_loads. rewrite Hl. unfold bind, seek. simpl.
    unfold write, truncate. simpl. unfold write_bytes. simpl.
    now rewrite firstn_append. }
  split; [now apply (Hrun project t)|].
  apply (Hrun _ (dumps_compact v)); [|assumption].
  apply decode_ascii; [assumption|]. rewrite encode_ascii_length by assumption. lia.
Qed.

(** C7 on a document laid out with spaces, with the small library. *)
Lemma optimize_idempotent_spaced :
  optimize spaced = Ret (encode (dumps_compact (JObj [("a"%string, JArr [JInt 1; JInt 2]); ("b"%string, JNull)])))
  /\ optimize (encode (dumps_compact (JObj [("a"%string, JArr [JInt 1; JInt 2]); ("b"%string, JNull)])))
     = Ret (encode (dumps_compact (JObj [("a"%string, JArr [JInt 1; JInt 2]); ("b"%string, JNull)]))).
Proof.
  apply (optimize_idempotent spaced (to_text spaced)); reflexivity.
Defined.

(** C6 fails on the code: the span finder returns byte offsets, and
    [f.read(end - start)] then reads that many characters.  On [accented]
    the span is the six bytes from offset 12 to offset 18; the call reads
    six characters, which are seven bytes, and hands the parser the array
    together with the closing brace that follows it. *)
Theorem extract_localization_reads_characters `{JsonLib} :
  find_couple_brackets_end 32 (mkFile accented 12) (literal "[") (literal "]") true
    = Ret (18, mkFile accented 12)
  /\ extract_localization 32 accented
     = (let* js := json_loads accented_over_read in Ret (encode (dumps js)))
  /\ length accented_over_read = 6%nat
  /\ encode accented_over_read = slice accented 12 19
  /\ slice accented 12 19 = slice accented 12 18 ++ [125].
Proof. repeat split. Qed.

(** With the small library the over-read text is rejected. *)
Lemma extract_localization_accented_fails : extract_localization 32 accented = Raise JSONDecodeError.
Proof. reflexivity. Qed.

(** C1 fails on the code: [add_translation] overwrites from the start of
    the span and never truncates.  With the array located at [[s, e)], the
    file ends up holding the bytes before [s], the payload, the bytes from
    [e] on, and then whatever of the old file lay beyond the end of what
    was written: the last [e - s - len(payload)] bytes of the old file when
    the payload is shorter than the span. *)
Theorem add_translation_overwrites `{JsonLib} (fuel : nat) (project working : list Z)
    (key s e : nat) (fo : text) (v : json) :
  stream_search fuel project "textList" 0 = Ret (Z.of_nat key) ->
  stream_search fuel project "[" (Z.of_nat key) = Ret (Z.of_nat s) ->
  find_couple_brackets_end fuel (mkFile project s) (literal "[") (literal "]") false
    = Ret (Z.of_nat e, mkFile project e) ->
  (s <= e <= length project)%nat ->
  utf8 (skipn e project) ->
  decode_chars (length working) working = Some fo ->
  loads fo = Some v ->
  (length project < fuel)%nat ->
  add_translation fuel project working =
    Ret (firstn s project ++ encode (dumps v) ++ skipn e project
         ++ skipn (s + length (encode (dumps v)) + (length project - e)) project).
Proof.
  intros Hkey Hopen Hend Hse Hutf Hfo Hload Hfuel.
  unfold add_translation. rewrite Hkey. unfold bind at 1.
  rewrite Hopen. unfold bind at 1.
  unfold open_file. rewrite seek_nat. unfold bind at 1. simpl contents.
  rewrite Hend. unfold bind at 1.
  destruct (read_all_utf8 project e Hutf ltac:(lia)) as (temp & -> & Htemp & Hcount).
  unfold bind at 1.
  unfold read_all at 1, read. simpl contents. simpl cursor. simpl skipn.
  rewrite Hfo. unfold bind at 1.
  unfold json_loads. rewrite Hload. unfold bind at 1.
  rewrite seek_nat. unfold bind at 1. simpl contents.
  rewrite copy_lines_all.
  - unfold bind. rewrite write_twice by (simpl; lia).
    unfold write, encode. simpl contents. f_equal.
    rewrite concat_app. fold (encode temp). rewrite Htemp.
    rewrite write_bytes_inside by lia.
    rewrite length_app, length_skipn, <- !app_assoc.
    now rewrite Nat.add_assoc.
  - lia.
  - apply write_cursor. simpl. lia.
Qed.

(** C1 on an empty array padded with four spaces and replaced by an
    empty array without padding. *)
Lemma add_translation_overwrites_padded :
  add_translation 32 padded empty_array =
    Ret (firstn 12 padded ++ encode (dumps (JArr [])) ++ skipn 18 padded
         ++ skipn (12 + length (encode (dumps (JArr []))) + (length padded - 18)) padded).
Proof.
  apply (add_translation_overwrites 32 padded empty_array 2 12 18 (to_text empty_array)).
  - reflexivity.
  - reflexivity.
  - reflexivity.
  - simpl. lia.
  - unfold utf8. vm_compute. discriminate.
  - reflexivity.
  - reflexivity.
  - simpl. lia.
Defined.

(** The claim promises [unpadded]; the four bytes that follow are the
    old end of the file, left in place. *)
Lemma add_translation_stale_bytes :
  firstn 12 padded ++ empty_array ++ skipn 18 padded = unpadded
  /\ add_translation 32 padded empty_array = Ret (unpadded ++ [32; 32; 93; 125]).
Proof. split; reflexivity. Qed.

Lemma brackets_loop_contents (ob cb : text) :
  forall fuel f d f', brackets_loop fuel f ob cb d = Ret f' -> contents f' = contents f.
Proof.
  induction fuel as [|fuel IH]; intros f d f' H; [discriminate|].
  simpl in H. destruct (d =? 0); [now injection H as <-|].
  destruct (read 1 f) as [[c f1]| |] eqn:E; try discriminate.
  simpl in H. apply IH in H. rewrite H. eapply read_contents; eauto.
Qed.

(** The span finder only reads. *)
Lemma find_couple_brackets_end_contents (fuel : nat) (f f' : file) (ob cb : text)
    (reset : bool) (e : Z) :
  find_couple_brackets_end fuel f ob cb reset = Ret (e, f') -> contents f' = contents f.
Proof.
  unfold find_couple_brackets_end. intros H.
  destruct (read 1 f) as [[c f1]| |] eqn:E1; try discriminate. simpl in H.
  destruct (brackets_loop fuel f1 ob cb 1) as [f2| |] eqn:E2; try discriminate.
  simpl in H. apply read_contents in E1. apply brackets_loop_contents in E2.
  destruct reset.
  - destruct (seek f2 (tell f)) as [f3| |] eqn:E3; try discriminate.
    simpl in H. injection H as _ <-. apply seek_contents in E3. congruence.
  - simpl in H. injection H as _ <-. congruence.
Qed.






End RewriterProperties.

(** ** The batch traversal *)

Module TranslationProperties.

Import Utils Translation Documents.

Section Batch.

Context `{Translator}.
Variables (lang_src lang_dest : string) (skip : bool).

(** The loop over a list of children is the loop over its first part
    followed by the loop over the rest, in the world the first part left. *)
Lemma translate_children_app (before after : list node) (w : world) :
  translate_children lang_src lang_dest skip (before ++ after) w =
    let (before', w1) := translate_children lang_src lang_dest skip before w in
    let (after', w2) := translate_children lang_src lang_dest skip after w1 in
    (before' ++ after', w2).
Proof.
  revert w. induction before as [|c before IH]; intros w; simpl.
  - now destruct (translate_children lang_src lang_dest skip after w).
  - destruct (translate_child lang_src lang_dest skip c w) as [c' w0].
    rewrite IH.
    destruct (translate_children lang_src lang_dest skip before w0) as [before' w1].
    now destruct (translate_children lang_src lang_dest skip after w1).
Qed.

(** The recursive call on a child without text is the loop over its
    children. *)
Lemma translate_child_nested (cs : list node) (w : world) :
  translate_child lang_src lang_dest skip (Node None (Some cs)) w =
    let (cs', w') := translate_children lang_src lang_dest skip cs w in
    (Node None (Some cs'), w').
Proof.
  cbn [translate_child].
  match goal with
  | |- (let (_, _) := ?each cs w in _) = _ =>
      assert (Heach : forall l w0, each l w0
                = translate_children lang_src lang_dest skip l w0)
  end.
  { induction l as [|c l IH]; intros w0; [reflexivity|].
    cbn [translate_children].
    destruct (translate_child lang_src lang_dest skip c w0) as [c' w1].
    now rewrite IH. }
  now rewrite Heach.
Qed.

(** The loop around a child with text whose translation fails: the
    children before it are translated, the child is left as it was, two
    lines are added to the log, and the children after it are translated
    from there. *)
Lemma translate_children_failure (before after before' after' : list node)
    (dictionary : mapping) (cs : option (list node))
    (k default_value : string) (rest : mapping)
    (w w1 w2 : world) (e : string) (remote' : service) :
  dictionary = (k, default_value) :: rest ->
  skip && mem lang_dest dictionary = false ->
  translate_children lang_src lang_dest skip before w = (before', w1) ->
  google (remote w1) (source_value lang_src dictionary default_value)
         (source_language lang_src) (iso_from_locale lang_dest) = (inr e, remote') ->
  translate_children lang_src lang_dest skip after
    (mkWorld
       (log w1
        ++ [("[Error] An exception has occurred:" ++ String "010"%char (" " ++ e))%string;
            "[Error] The last translation was not carried out"%string])
       remote') = (after', w2) ->
  translate_children lang_src lang_dest skip
    (before ++ Node (Some dictionary) cs :: after) w
  = (before' ++ Node (Some dictionary) cs :: after', w2).
Proof.
  intros Hdict Hskip Hbefore Hfail Hafter.
  rewrite translate_children_app, Hbefore.
  cbn [translate_children translate_child]. unfold translate_text.
  rewrite Hdict in *. rewrite Hskip, Hfail.
  unfold log_failure, message. cbn [String.eqb Ascii.eqb Bool.eqb].
  rewrite <- app_assoc. cbn [app].
  unfold newline. change (ascii_of_nat 10) with "010"%char.
  cbn [String.append] in Hafter |- *.
  now rewrite Hafter.
Qed.

(** C9: when the translation of one child fails, that child is left as
    it was (its text mapping unchanged), two lines are added to the log,
    [[Error] An exception has occurred:] with the message of the exception
    on the line after it and [[Error] The last translation was not carried
    out], and the children after it are translated as the loop translates
    them from the state the failure left.  This holds of the children of
    the block handed to [translate_block] and, in the same words, of the
    children of a child without text, which the traversal enters by a
    recursive call: a failure is skipped in the same way at any depth. *)
Theorem translate_block_skips_failed_translation
    (t : option mapping) (before after before' after' : list node)
    (dictionary : mapping) (cs : option (list node))
    (k default_value : string) (rest : mapping)
    (w w1 w2 : world) (e : string) (remote' : service) :
  dictionary = (k, default_value) :: rest ->
  skip && mem lang_dest dictionary = false ->
  translate_children lang_src lang_dest skip before w = (before', w1) ->
  google (remote w1) (source_value lang_src dictionary default_value)
         (source_language lang_src) (iso_from_locale lang_dest) = (inr e, remote') ->
  translate_children lang_src lang_dest skip after
    (mkWorld
       (log w1
        ++ [("[Error] An exception has occurred:" ++ String "010"%char (" " ++ e))%string;
            "[Error] The last translation was not carried out"%string])
       remote') = (after', w2) ->
  translate_block (Node t (Some (before ++ Node (Some dictionary) cs :: after)))
    lang_src lang_dest skip w
  = Ret (Node t (Some (before' ++ Node (Some dictionary) cs :: after')), w2)
  /\ translate_child lang_src lang_dest skip
       (Node None (Some (before ++ Node (Some dictionary) cs :: after))) w
     = (Node None (Some (before' ++ Node (Some dictionary) cs :: after')), w2).
Proof.
  intros Hdict Hskip Hbefore Hfail Hafter.
  pose proof (translate_children_failure before after before' after' dictionary cs
                k default_value rest w w1 w2 e remote'
                Hdict Hskip Hbefore Hfail Hafter) as Hloop.
  split.
  - unfold translate_block. now rewrite Hloop.
  - rewrite translate_child_nested. now rewrite Hloop.
Qed.

End Batch.

(** C9 on a service that fails on its second call: the first child is
    translated, the second is left as it was, and the third, a child
    without text, is entered and its own child translated. *)
Lemma translate_block_skips_failed_translation_flaky :
  @translate_block flaky
    (Node None (Some ([says "Hello"] ++ says "Goodbye"
                      :: [Node None (Some [says "Thanks"])])))
    "en_US" "it_IT" false (@mkWorld flaky [] 0%nat)
  = Ret (Node None
           (Some ([Node (Some [("en_US", "Hello"); ("it_IT", "Hello in it")]%string) None]
                  ++ says "Goodbye"
                  :: [Node None
                        (Some [Node (Some [("en_US", "Thanks");
                                           ("it_IT", "Thanks in it")]%string) None])])),
         @mkWorld flaky
           ([] ++ [("[Error] An exception has occurred:"
                    ++ String "010"%char (" " ++ "timed out"))%string;
                   "[Error] The last translation was not carried out"%string])
           3%nat)
  /\ @translate_child flaky "en_US" "it_IT" false
       (Node None (Some ([says "Hello"] ++ says "Goodbye"
                         :: [Node None (Some [says "Thanks"])])))
       (@mkWorld flaky [] 0%nat)
     = (Node None
          (Some ([Node (Some [("en_US", "Hello"); ("it_IT", "Hello in it")]%string) None]
                 ++ says "Goodbye"
                 :: [Node None
                       (Some [Node (Some [("en_US", "Thanks");
                                          ("it_IT", "Thanks in it")]%string) None])])),
        @mkWorld flaky
          ([] ++ [("[Error] An exception has occurred:"
                   ++ String "010"%char (" " ++ "timed out"))%string;
                  "[Error] The last translation was not carried out"%string])
          3%nat).
Proof.
  apply (@translate_block_skips_failed_translation flaky "en_US" "it_IT" false None
           [says "Hello"] [Node None (Some [says "Thanks"])] _ _
           [("en_US", "Goodbye")]%string None
           "en_US" "Goodbye" [] (@mkWorld flaky [] 0%nat) (@mkWorld flaky [] 1%nat) _
           "timed out" 2%nat);
    reflexivity.
Defined.

End TranslationProperties.

(** * Further properties of the code *)

(** ** The primary subtag of a locale *)

Module LocaleExtras.

Import Utils LocaleProperties.

Lemma str_index_append (c : ascii) (a b : string) :
  str_index c a = None ->
  str_index c (a ++ String c b) = Some (String.length a).
Proof.
  induction a as [|x a IH]; simpl.
  - now rewrite Ascii.eqb_refl.
  - destruct (Ascii.eqb x c); [discriminate|].
    destruct (str_index c a); [discriminate|]. intros _. now rewrite IH.
Qed.

Lemma str_index_append_none (c : ascii) (a b : string) :
  str_index c a = None -> str_index c b = None -> str_index c (a ++ b) = None.
Proof.
  induction a as [|x a IH]; simpl; [auto|].
  destruct (Ascii.eqb x c); [discriminate|].
  destruct (str_index c a); [discriminate|]. intros _ Hb. now rewrite IH.
Qed.

Lemma up_to_append (c : ascii) (a b : string) :
  str_index c a = None -> up_to c (a ++ String c b) = a.
Proof.
  induction a as [|x a IH]; simpl.
  - now rewrite Ascii.eqb_refl.
  - destruct (Ascii.eqb x c); [discriminate|].
    destruct (str_index c a); [discriminate|]. intros _. now rewrite IH.
Qed.

Lemma str_contains_false (c : ascii) (s : string) :
  str_contains c s = false <-> str_index c s = None.
Proof. unfold str_contains. destruct (str_index c s); split; congruence. Qed.

(** X1: for a language tag free of separators, [iso_from_locale] returns
    the tag from [tag-REST] whatever follows the dash, and from
    [tag_REGION] when the region holds no dash. *)
Theorem iso_from_locale_language_region (lang : string) :
  str_contains "-" lang = false ->
  str_contains "_" lang = false ->
  (forall rest, iso_from_locale (lang ++ String "-" rest) = lang)
  /\ (forall region, str_contains "-" region = false ->
        iso_from_locale (lang ++ String "_" region) = lang).
Proof.
  intros Hd Hu. apply str_contains_false in Hd, Hu. split.
  - intros rest. rewrite iso_from_locale_cases. unfold str_contains.
    rewrite str_index_append by assumption. now apply up_to_append.
  - intros region Hr. apply str_contains_false in Hr.
    rewrite iso_from_locale_cases. unfold str_contains.
    rewrite (str_index_append_none "-" lang (String "_" region));
      [|assumption|simpl; now rewrite Hr].
    rewrite str_index_append by assumption. now apply up_to_append.
Qed.

Lemma iso_from_locale_language_region_en :
  (forall rest, iso_from_locale ("en" ++ String "-" rest) = "en"%string)
  /\ (forall region, str_contains "-" region = false ->
        iso_from_locale ("en" ++ String "_" region) = "en"%string).
Proof. apply (iso_from_locale_language_region "en"); reflexivity. Defined.

Lemma up_to_prefix (c : ascii) (s : string) :
  exists rest, s = (up_to c s ++ rest)%string.
Proof.
  induction s as [|x s (rest & IH)]; simpl; [now exists EmptyString|].
  destruct (Ascii.eqb x c).
  - now exists (String x s).
  - exists rest. simpl. now rewrite <- IH.
Qed.

Lemma up_to_free (c : ascii) (s : string) : str_index c (up_to c s) = None.
Proof.
  induction s as [|x s IH]; simpl; [reflexivity|].
  destruct (Ascii.eqb x c) eqn:E; [reflexivity|]. simpl. now rewrite E, IH.
Qed.

Lemma up_to_keeps_free (c d : ascii) (s : string) :
  str_index d s = None -> str_index d (up_to c s) = None.
Proof.
  induction s as [|x s IH]; simpl; [reflexivity|].
  destruct (Ascii.eqb x d) eqn:E; [discriminate|].
  destruct (str_index d s); [discriminate|]. intros _.
  destruct (Ascii.eqb x c); [reflexivity|]. simpl. now rewrite E, IH.
Qed.

(** X2: what [iso_from_locale] returns is always a prefix of the locale
    and never holds a dash. *)
Theorem iso_from_locale_prefix (locale : string) :
  (exists rest, locale = (iso_from_locale locale ++ rest)%string)
  /\ str_contains "-" (iso_from_locale locale) = false.
Proof.
  rewrite iso_from_locale_cases.
  destruct (str_contains "-" locale) eqn:Hd.
  - split; [apply up_to_prefix|]. apply str_contains_false, up_to_free.
  - apply str_contains_false in Hd. destruct (str_contains "_" locale).
    + split; [apply up_to_prefix|]. apply str_contains_false.
      now apply up_to_keeps_free.
    + split; [exists EmptyString|now apply str_contains_false].
      clear. induction locale; simpl; congruence.
Qed.

End LocaleExtras.

(** ** The byte pattern locator *)

Module LocatorExtras.

Import Utils Locator Documents LocatorProperties.

(** X3: [is_slice_in_list] is true exactly when the list is the slice
    with something before it and something after it. *)
Theorem is_slice_in_list_contiguous (s l : list Z) :
  is_slice_in_list s l = true <-> exists pre post, l = pre ++ s ++ post.
Proof.
  rewrite is_slice_in_list_iff. split.
  - intros (i & Hle & Heq).
    exists (firstn i l), (skipn (length s) (skipn i l)).
    rewrite <- Heq at 1. now rewrite !firstn_skipn.
  - intros (pre & post & ->). exists (length pre). split.
    + rewrite !length_app. lia.
    + rewrite skipn_app, Nat.sub_diag, skipn_all. simpl.
      rewrite firstn_app, Nat.sub_diag, firstn_all. simpl. apply app_nil_r.
Qed.

Lemma occurs_at_dec (data pattern : list Z) (o : nat) :
  {occurs_at data pattern o} + {~ occurs_at data pattern o}.
Proof. apply (list_eq_dec Z.eq_dec). Qed.

(** Below an occurrence there is a first one. *)
Lemma first_occurrence (data pattern : list Z) :
  forall d pos o,
    (o - pos <= d)%nat -> (pos <= o)%nat -> occurs_at data pattern o ->
    exists o0, (pos <= o0 <= o)%nat /\ occurs_at data pattern o0
               /\ forall j, (pos <= j < o0)%nat -> ~ occurs_at data pattern j.
Proof.
  induction d as [|d IH]; intros pos o Hd Hpos Hocc.
  - exists o. split; [lia|]. split; [assumption|]. intros j Hj. lia.
  - destruct (occurs_at_dec data pattern pos) as [Hhere|Hnot].
    + exists pos. split; [lia|]. split; [assumption|]. intros j Hj. lia.
    + destruct (Nat.eq_dec pos o) as [->|Hne]; [contradiction|].
      destruct (IH (S pos) o) as (o0 & Ho0 & Hocc0 & Hleast); [lia|lia|assumption|].
      exists o0. split; [lia|]. split; [assumption|].
      intros j Hj. destruct (Nat.eq_dec j pos) as [->|]; [assumption|].
      apply Hleast. lia.
Qed.

(** The cursor one iteration leaves is not before the one it started
    from. *)
Lemma search_step_cursor_le (data pattern : list Z) (pos c : nat) :
  search_step data pattern pos = Cursor c -> (pos <= c)%nat.
Proof.
  unfold search_step. rewrite scan_occourrences_find.
  set (stream := firstn (length pattern) (skipn pos data)).
  destruct (find _ (occourrences pattern stream)) as [i|].
  - destruct (list_eqb (skipn i stream) pattern); [discriminate|].
    intros [= <-]. rewrite length_skipn. lia.
  - intros [= <-]. lia.
Qed.

(** No occurrence lies between the cursor of an iteration and the cursor
    it leaves. *)
Lemma search_step_skips_no_match (data pattern : list Z) (pos c : nat) :
  search_step data pattern pos = Cursor c ->
  forall o, (pos <= o < c)%nat -> ~ occurs_at data pattern o.
Proof.
  intros Hstep o Ho Hocc.
  destruct pattern as [|p0 tl] eqn:Hp.
  - unfold search_step in Hstep. simpl in Hstep. injection Hstep as <-. lia.
  - rewrite <- Hp in *. assert (Hne : pattern <> []) by (rewrite Hp; discriminate).
    destruct (first_occurrence data pattern (o - pos) pos o) as (o0 & Ho0 & Hocc0 & Hleast);
      [lia|lia|assumption|].
    destruct (Nat.eq_dec pos o0) as [->|Hlt].
    + rewrite (search_step_at_match data pattern o0 Hne Hocc0) in Hstep. discriminate.
    + destruct (search_step_before_match data pattern o0 Hne Hocc0 pos) as (c' & Hc' & Hle);
        [lia|assumption|].
      rewrite Hstep in Hc'. injection Hc' as <-. lia.
Qed.

(** What the loop returns from a cursor before which there is no
    occurrence. *)
Lemma search_loop_correct (data pattern : list Z) (start : nat) :
  pattern <> [] ->
  forall fuel pos z,
    (start <= pos)%nat ->
    (forall j, (start <= j < pos)%nat -> ~ occurs_at data pattern j) ->
    search_loop fuel data pattern (length data) pos = Ret z ->
    (z = -1 /\ (forall o, (start <= o)%nat -> ~ occurs_at data pattern o))
    \/ exists o, z = Z.of_nat o /\ (start <= o)%nat /\ occurs_at data pattern o
                 /\ forall j, (start <= j < o)%nat -> ~ occurs_at data pattern j.
Proof.
  intros Hne. induction fuel as [|fuel IH]; intros pos z Hpos Hnone H; [discriminate|].
  simpl in H. destruct (pos <? length data)%nat eqn:Hend.
  - destruct (search_step data pattern pos) as [o|c] eqn:Hstep.
    + injection H as <-. apply search_step_found in Hstep as (-> & Hocc).
      right. exists pos. auto.
    + pose proof (search_step_cursor_le _ _ _ _ Hstep).
      pose proof (search_step_skips_no_match _ _ _ _ Hstep) as Hskip.
      apply (IH c z); [lia| |assumption].
      intros j Hj. destruct (Nat.lt_ge_cases j pos); [apply Hnone|apply Hskip]; lia.
  - injection H as <-. left. split; [reflexivity|].
    apply Nat.ltb_ge in Hend. intros o Ho Hocc.
    destruct (Nat.lt_ge_cases o pos); [now apply (Hnone o); try lia|].
    pose proof (occurs_in_bounds data pattern o Hne Hocc).
    destruct pattern; [congruence|simpl in *; lia].
Qed.

(** With the empty pattern the loop returns nothing but the sentinel. *)
Lemma search_loop_empty (data : list Z) (end_position : nat) :
  forall fuel pos z,
    search_loop fuel data [] end_position pos = Ret z -> z = -1.
Proof.
  induction fuel as [|fuel IH]; intros pos z H; [discriminate|].
  simpl in H. destruct (pos <? end_position)%nat; [|now injection H].
  now apply IH in H.
Qed.

(** X4: an offset returned by [stream_search] is at or after [start], the
    pattern occurs there, and it occurs nowhere between [start] and that
    offset. *)
Theorem stream_search_returns_first_match (fuel : nat) (data : list Z)
    (pattern : string) (start o : nat) :
  stream_search fuel data pattern (Z.of_nat start) = Ret (Z.of_nat o) ->
  (start <= o)%nat
  /\ occurs_at data (str_encode pattern) o
  /\ forall j, (start <= j < o)%nat -> ~ occurs_at data (str_encode pattern) j.
Proof.
  unfold stream_search.
  replace (Z.of_nat start <? 0) with false by (symmetry; apply Z.ltb_ge; lia).
  rewrite Nat2Z.id. intros H.
  destruct pattern as [|a pattern].
  - apply search_loop_empty in H. lia.
  - assert (Hnone : forall j, (start <= j < start)%nat ->
              ~ occurs_at data (str_encode (String a pattern)) j)
      by (intros j Hj; lia).
    destruct (search_loop_correct data (str_encode (String a pattern)) start
                ltac:(discriminate) fuel start (Z.of_nat o) (Nat.le_refl _) Hnone H)
      as [(Hz & _)|(o' & Hz & Hle & Hocc & Hleast)]; [lia|].
    apply Nat2Z.inj in Hz. subst o'. auto.
Qed.

Lemma stream_search_returns_first_match_scenario :
  (0 <= 2)%nat
  /\ occurs_at scenario (str_encode "textList") 2
  /\ forall j, (0 <= j < 2)%nat -> ~ occurs_at scenario (str_encode "textList") j.
Proof.
  apply (stream_search_returns_first_match 16 scenario "textList" 0 2).
  reflexivity.
Defined.

(** X5: when [stream_search] returns -1 for a pattern that is not empty,
    the pattern occurs nowhere at or after [start]. *)
Theorem stream_search_not_found_is_absent (fuel : nat) (data : list Z)
    (pattern : string) (start : nat) :
  pattern <> EmptyString ->
  stream_search fuel data pattern (Z.of_nat start) = Ret (-1) ->
  forall o, (start <= o)%nat -> ~ occurs_at data (str_encode pattern) o.
Proof.
  intros Hne. unfold stream_search.
  replace (Z.of_nat start <? 0) with false by (symmetry; apply Z.ltb_ge; lia).
  rewrite Nat2Z.id. intros H.
  assert (Hnone : forall j, (start <= j < start)%nat ->
            ~ occurs_at data (str_encode pattern) j)
    by (intros j Hj; lia).
  destruct (search_loop_correct data (str_encode pattern) start
              (str_encode_nil _ Hne) fuel start (-1) (Nat.le_refl _) Hnone H)
    as [(_ & Habsent)|(o' & Hz & _)]; [exact Habsent|lia].
Qed.

Lemma stream_search_not_found_is_absent_scenario :
  stream_search 32 scenario "missing" 0 = Ret (-1)
  /\ ~ occurs_at scenario (str_encode "missing") 5.
Proof.
  split; [reflexivity|].
  apply (stream_search_not_found_is_absent 32 scenario "missing" 0).
  - discriminate.
  - reflexivity.
  - lia.
Defined.

(** One iteration with a pattern of one byte: a match under the cursor,
    or one byte forward. *)
Lemma search_step_single_byte (data : list Z) (p0 : Z) (pos : nat) :
  (pos < length data)%nat ->
  search_step data [p0] pos = Found (Z.of_nat pos)
  \/ search_step data [p0] pos = Cursor (S pos).
Proof.
  intros Hpos. unfold search_step.
  destruct (skipn pos data) as [|x rest] eqn:Hskip.
  { apply (f_equal (@length Z)) in Hskip. rewrite length_skipn in Hskip.
    simpl in Hskip. lia. }
  simpl firstn. unfold occourrences, enumerate. simpl.
  destruct (x =? p0) eqn:Hx.
  - left. simpl. unfold is_slice_in_list. simpl. rewrite Hx. simpl. f_equal. lia.
  - right. simpl. f_equal. lia.
Qed.

Lemma search_loop_single_byte (data : list Z) (p0 : Z) :
  forall fuel pos,
    (length data - pos < fuel)%nat ->
    exists z, search_loop fuel data [p0] (length data) pos = Ret z.
Proof.
  induction fuel as [|fuel IH]; intros pos Hfuel; [lia|].
  simpl. destruct (pos <? length data)%nat eqn:Hend; [|now exists (-1)].
  apply Nat.ltb_lt in Hend.
  destruct (search_step_single_byte data p0 pos Hend) as [-> | ->]; [eauto|].
  apply IH. lia.
Qed.

(** X6: with a pattern of one byte, as in the second search of every
    caller, [stream_search] returns within as many iterations as the file
    has bytes, plus one. *)
Theorem stream_search_single_byte_terminates (fuel : nat) (data : list Z)
    (b : ascii) (start : nat) :
  (length data < fuel)%nat ->
  exists z, stream_search fuel data (String b EmptyString) (Z.of_nat start) = Ret z.
Proof.
  intros Hfuel. unfold stream_search.
  replace (Z.of_nat start <? 0) with false by (symmetry; apply Z.ltb_ge; lia).
  rewrite Nat2Z.id. apply search_loop_single_byte. lia.
Qed.

Lemma stream_search_single_byte_terminates_scenario :
  exists z, stream_search 200 scenario (String "{" EmptyString) (Z.of_nat 3) = Ret z.
Proof.
  apply (stream_search_single_byte_terminates 200 scenario "{" 3).
  apply Nat.ltb_lt. reflexivity.
Defined.

End LocatorExtras.

(** ** The bracket-balance span finder *)

Module BracketsExtras.

Import Locator TextIO Brackets Documents.
Import TextIOProperties BracketsProperties RewriterProperties.

Lemma read_cursor (n : nat) (f f' : file) (t : text) :
  read n f = Ret (t, f') -> (cursor f <= cursor f')%nat.
Proof.
  unfold read. destruct (decode_chars n _); [|discriminate].
  intros [= _ <-]. simpl. lia.
Qed.

Lemma brackets_loop_cursor (ob cb : text) :
  forall fuel f d f', brackets_loop fuel f ob cb d = Ret f' -> (cursor f <= cursor f')%nat.
Proof.
  induction fuel as [|fuel IH]; intros f d f' H; [discriminate|].
  simpl in H. destruct (d =? 0); [injection H as <-; lia|].
  destruct (read 1 f) as [[c f1]| |] eqn:E; try discriminate.
  simpl in H. apply IH in H. apply read_cursor in E. lia.
Qed.

(** X7: when [find_couple_brackets_end] returns, the bytes of the file
    are untouched, the cursor is back where it was if [reset] is set and at
    the returned offset otherwise, and the returned offset is not before
    the starting one. *)
Theorem find_couple_brackets_end_frame (fuel : nat) (f f' : file)
    (open_bracket close_bracket : text) (reset : bool) (e : Z) :
  find_couple_brackets_end fuel f open_bracket close_bracket reset = Ret (e, f') ->
  contents f' = contents f
  /\ cursor f' = (if reset then cursor f else Z.to_nat e)
  /\ tell f <= e.
Proof.
  intros H. split; [eapply find_couple_brackets_end_contents; eauto|].
  unfold find_couple_brackets_end in H.
  destruct (read 1 f) as [[c f1]| |] eqn:E1; try discriminate. simpl in H.
  destruct (brackets_loop fuel f1 open_bracket close_bracket 1) as [f2| |] eqn:E2;
    try discriminate.
  simpl in H. apply read_cursor in E1. apply brackets_loop_cursor in E2.
  destruct reset.
  - unfold seek, tell in H.
    replace (Z.of_nat (cursor f) <? 0) with false in H
      by (symmetry; apply Z.ltb_ge; lia).
    simpl in H. injection H as <- <-. simpl. rewrite Nat2Z.id. unfold tell. split; lia.
  - simpl in H. injection H as <- <-. unfold tell. rewrite Nat2Z.id. split; lia.
Qed.

Lemma find_couple_brackets_end_frame_nested :
  contents (mkFile nested 12) = contents (mkFile nested 12)
  /\ cursor (mkFile nested 12) = (if true then cursor (mkFile nested 12) else Z.to_nat 22)
  /\ tell (mkFile nested 12) <= 22.
Proof.
  apply (find_couple_brackets_end_frame 32 (mkFile nested 12) (mkFile nested 12)
           (literal "[") (literal "]") true 22).
  reflexivity.
Defined.

End BracketsExtras.

(** ** The operations on [project.json] *)

Module RewriterExtras.

Import Locator TextIO Brackets Json Rewriter MiniJson Documents Examples.
Import LocatorProperties TextIOProperties BracketsProperties RewriterProperties.

(** X8: on a document without carriage returns that is UTF-8 from the
    opening bracket to the end of the file, when the bytes of the located
    span are all ASCII, [extract_localization] hands the parser exactly
    the bytes of the span and writes the serialisation of what the parser
    returns. *)
Theorem extract_localization_ascii_span `{JsonLib} (fuel : nat) (project : list Z)
    (key s e : nat) :
  no_cr project = true ->
  utf8 (skipn s project) ->
  stream_search fuel project "textList" 0 = Ret (Z.of_nat key) ->
  stream_search fuel project "[" (Z.of_nat key) = Ret (Z.of_nat s) ->
  find_couple_brackets_end fuel (mkFile project s) (literal "[") (literal "]") true
    = Ret (Z.of_nat e, mkFile project s) ->
  forallb (in_range 0 127) (slice project s e) = true ->
  extract_localization fuel project =
    (let* js := json_loads (map (fun b => [b]) (slice project s e)) in
     Ret (encode (dumps js))).
Proof.
  intros _ _ Hkey Hopen Hend Hascii. unfold extract_localization.
  rewrite Hkey. unfold bind at 1. rewrite Hopen. unfold bind at 1.
  unfold open_file. rewrite seek_nat. unfold bind at 1. simpl contents.
  rewrite Hend. unfold bind at 1.
  replace (Z.to_nat (Z.of_nat e - Z.of_nat s)) with (e - s)%nat by lia.
  unfold read. simpl contents. simpl cursor.
  unfold slice in Hascii. rewrite (decode_chars_ascii _ _ Hascii). reflexivity.
Qed.

Lemma extract_localization_ascii_span_scenario :
  extract_localization 64 scenario =
    (let* js := json_loads (map (fun b => [b]) (slice scenario 12 55)) in
     Ret (encode (dumps js))).
Proof.
  apply (extract_localization_ascii_span 64 scenario 2 12 55); try reflexivity.
  unfold utf8. vm_compute. discriminate.
Defined.

(** When the transfer loop returns, it has written the whole buffer. *)
Lemma copy_lines_ret :
  forall fuel temp f f',
    copy_lines fuel temp f = Ret f' ->
    (cursor f <= length (contents f))%nat ->
    f' = write temp f.
Proof.
  induction fuel as [|fuel IH]; intros temp f f' H Hc; [discriminate|].
  rewrite copy_lines_S in H. pose proof (readline_split 2048 temp) as (Hsplit & Hempty).
  destruct (fst (readline 2048 temp)) as [|c line] eqn:Hline.
  - injection H as <-. rewrite Hempty by (auto; lia). now rewrite write_nothing.
  - apply IH in H; [|now apply write_cursor].
    rewrite write_twice in H by assumption. now rewrite Hsplit in H.
Qed.

Lemma write_bytes_grows (data : list Z) (p : nat) (bs : list Z) :
  (p <= length data)%nat ->
  length (write_bytes data p bs) = Nat.max (length data) (p + length bs).
Proof.
  intros Hp. rewrite write_bytes_inside by assumption.
  rewrite !length_app, length_firstn, length_skipn. lia.
Qed.

Lemma write_bytes_prefix (data : list Z) (p : nat) (bs : list Z) :
  (p <= length data)%nat -> firstn p (write_bytes data p bs) = firstn p data.
Proof.
  intros Hp. rewrite write_bytes_inside by assumption.
  assert (Hl : length (firstn p data) = p) by (rewrite length_firstn; lia).
  rewrite <- Hl at 1. apply firstn_append.
Qed.

(** Seeking to [s], writing the payload and transferring the side buffer
    amounts to one write of the two at [s]. *)
Lemma rewrite_from (fuel : nat) (project : list Z) (s : nat) (payload temp : text)
    (f' : file) :
  (s <= length project)%nat ->
  copy_lines fuel temp (write payload (mkFile project s)) = Ret f' ->
  contents f' = write_bytes project s (encode payload ++ encode temp).
Proof.
  intros Hs H. apply copy_lines_ret in H; [|apply write_cursor; simpl; lia].
  subst f'. rewrite write_twice by (simpl; lia).
  unfold write, encode. simpl. now rewrite concat_app.
Qed.

(** An offset returned for a pattern that is not empty leaves room for
    the pattern before the end of the file. *)
Lemma stream_search_in_bounds (fuel : nat) (data : list Z) (pattern : string)
    (start z : Z) :
  pattern <> EmptyString ->
  stream_search fuel data pattern start = Ret z -> 0 <= z ->
  (Z.to_nat z + length (str_encode pattern) <= length data)%nat.
Proof.
  intros Hne H Hz. apply stream_search_sound in H as [->|(o & -> & Hocc)]; [lia|].
  rewrite Nat2Z.id. apply occurs_in_bounds; [now apply str_encode_nil|assumption].
Qed.

(** X10: whenever [add_translation] returns, the bytes before the opening
    bracket it located are those of the old file, and the file is at least
    as long as it was. *)
Theorem add_translation_never_shrinks `{JsonLib} (fuel : nat)
    (project working r : list Z) :
  add_translation fuel project working = Ret r ->
  exists key s,
    stream_search fuel project "textList" 0 = Ret key
    /\ stream_search fuel project "[" key = Ret (Z.of_nat s)
    /\ firstn s r = firstn s project
    /\ (length project <= length r)%nat.
Proof.
  unfold add_translation. intros H0.
  destruct (stream_search fuel project "textList" 0) as [key| |] eqn:Hkey;
    try discriminate. simpl in H0.
  destruct (stream_search fuel project "[" key) as [s| |] eqn:Hs; try discriminate.
  simpl in H0.
  destruct (seek (open_file project) s) as [f0| |] eqn:E0; try discriminate.
  simpl in H0.
  assert (Hpos : 0 <= s).
  { unfold seek in E0. destruct (s <? 0) eqn:E; [discriminate|]. now apply Z.ltb_ge. }
  assert (Hopener : String "[" EmptyString <> EmptyString) by discriminate.
  pose proof (stream_search_in_bounds _ _ _ _ _ Hopener Hs Hpos) as Hb.
  simpl in Hb.
  destruct (find_couple_brackets_end fuel f0 (literal "[") (literal "]") false)
    as [[e f1]| |] eqn:E1; try discriminate.
  simpl in H0.
  destruct (read_all f1) as [[temp f2]| |] eqn:E2; try discriminate. simpl in H0.
  destruct (read_all (open_file working)) as [[fo f3]| |]; try discriminate.
  simpl in H0.
  destruct (json_loads fo) as [v| |]; try discriminate. simpl in H0.
  assert (Hc2 : contents f2 = project).
  { apply read_contents in E2. apply find_couple_brackets_end_contents in E1.
    apply seek_contents in E0. simpl in E0. congruence. }
  replace s with (Z.of_nat (Z.to_nat s)) in H0 by lia.
  rewrite seek_nat, Hc2 in H0. simpl in H0.
  destruct (copy_lines fuel temp (write (dumps v) (mkFile project (Z.to_nat s))))
    as [f'| |] eqn:E5; try discriminate.
  simpl in H0. injection H0 as <-.
  apply rewrite_from in E5; [|lia]. rewrite E5.
  exists key, (Z.to_nat s). rewrite Z2Nat.id by lia.
  split; [reflexivity|]. split; [exact Hs|]. split.
  - apply write_bytes_prefix. lia.
  - rewrite write_bytes_grows by lia. lia.
Qed.

Lemma add_translation_never_shrinks_padded :
  exists key s,
    stream_search 32 padded "textList" 0 = Ret key
    /\ stream_search 32 padded "[" key = Ret (Z.of_nat s)
    /\ firstn s (unpadded ++ [32; 32; 93; 125]%Z) = firstn s padded
    /\ (length padded <= length (unpadded ++ [32; 32; 93; 125]%Z))%nat.
Proof.
  apply (add_translation_never_shrinks 32 padded empty_array). reflexivity.
Defined.





Lemma lookup_replace_same (key : string) (v w : json) (members : list (string * json)) :
  lookup key members = Some w -> lookup key (replace key v members) = Some v.
Proof.
  induction members as [|[k x] members IH]; simpl; [discriminate|].
  destruct (String.eqb k key) eqn:E; simpl; rewrite E; auto.
Qed.

Lemma lookup_replace_other (key k : string) (v : json) (members : list (string * json)) :
  k <> key -> lookup k (replace key v members) = lookup k members.
Proof.
  intros Hne. induction members as [|[k' x] members IH]; simpl; [reflexivity|].
  destruct (String.eqb k' key) eqn:E; simpl.
  - apply String.eqb_eq in E. subst k'.
    destruct (String.eqb key k) eqn:E'; [|reflexivity].
    apply String.eqb_eq in E'. congruence.
  - now rewrite IH.
Qed.

(** X13: after the locale is appended, the language array of the object
    to be written ends with it, the membership test of the next run finds
    it, and every other key of the object reads as before. *)
Theorem language_appended_is_found (members : list (string * json))
    (items : list json) (lang_dest : string) :
  lookup "language" members = Some (JArr items) ->
  exists language js,
    append (JArr items) lang_dest = Ret language
    /\ js = setitem (JObj members) "language" language
    /\ getitem js "language" = Ret (JArr (items ++ [JStr lang_dest]))
    /\ contains (JArr (items ++ [JStr lang_dest])) lang_dest = Ret true
    /\ (forall k, k <> "language"%string ->
          getitem js k = getitem (JObj members) k).
Proof.
  intros Hl. exists (JArr (items ++ [JStr lang_dest])). eexists.
  split; [reflexivity|]. split; [reflexivity|]. split; [|split].
  - simpl. now rewrite (lookup_replace_same _ _ _ _ Hl).
  - simpl. f_equal. rewrite existsb_app. simpl. rewrite String.eqb_refl.
    now rewrite orb_true_r.
  - intros k Hk. simpl. now rewrite lookup_replace_other.
Qed.

Lemma language_appended_is_found_scenario :
  exists language js,
    append (JArr [JStr "en_US"]) "it_IT" = Ret language
    /\ js = setitem (JObj [("language"%string, JArr [JStr "en_US"])]) "language" language
    /\ getitem js "language" = Ret (JArr ([JStr "en_US"] ++ [JStr "it_IT"]))
    /\ contains (JArr ([JStr "en_US"] ++ [JStr "it_IT"])) "it_IT" = Ret true
    /\ (forall k, k <> "language"%string ->
          getitem js k = getitem (JObj [("language"%string, JArr [JStr "en_US"])]) k).
Proof.
  apply (language_appended_is_found [("language"%string, JArr [JStr "en_US"])]
           [JStr "en_US"] "it_IT").
  reflexivity.
Defined.



(** X12: whenever [add_language_support] returns, the bytes before the
    opening brace it located are those of the old file, and the file is at
    least as long as it was. *)
Theorem add_language_support_never_shrinks `{JsonLib} (fuel : nat)
    (project r : list Z) (lang_dest : string) :
  add_language_support fuel project lang_dest = Ret r ->
  exists key gi,
    stream_search fuel project "gameInformation" 0 = Ret key
    /\ stream_search fuel project "{" key = Ret (Z.of_nat gi)
    /\ firstn gi r = firstn gi project
    /\ (length project <= length r)%nat.
Proof.
  unfold add_language_support. intros H0.
  destruct (stream_search fuel project "gameInformation" 0) as [key| |] eqn:Hkey;
    try discriminate. simpl in H0.
  destruct (stream_search fuel project "{" key) as [s| |] eqn:Hs; try discriminate.
  simpl in H0.
  destruct (seek (open_file project) s) as [f0| |] eqn:E0; try discriminate.
  simpl in H0.
  assert (Hpos : 0 <= s).
  { unfold seek in E0. destruct (s <? 0) eqn:E; [discriminate|]. now apply Z.ltb_ge. }
  assert (Hopener : String "{" EmptyString <> EmptyString) by discriminate.
  pose proof (stream_search_in_bounds _ _ _ _ _ Hopener Hs Hpos) as Hb.
  simpl in Hb.
  destruct (find_couple_brackets_end fuel f0 (literal "{") (literal "}") true)
    as [[e f1]| |] eqn:E1; try discriminate.
  simpl in H0.
  destruct (read (Z.to_nat (e - s)) f1) as [[data f2]| |] eqn:E2; try discriminate.
  simpl in H0.
  assert (Hc2 : contents f2 = project).
  { apply read_contents in E2. apply find_couple_brackets_end_contents in E1.
    apply seek_contents in E0. simpl in E0. congruence. }
  destruct (json_loads data) as [js| |]; try discriminate. simpl in H0.
  destruct (getitem js "language") as [language| |]; try discriminate. simpl in H0.
  destruct (contains language lang_dest) as [present| |]; try discriminate.
  simpl in H0. exists key, (Z.to_nat s). rewrite Z2Nat.id by lia.
  split; [reflexivity|]. split; [exact Hs|].
  destruct present; simpl in H0.
  - injection H0 as <-. rewrite Hc2. split; [reflexivity|lia].
  - destruct (append language lang_dest) as [language'| |]; try discriminate.
    simpl in H0.
    destruct (read_all f2) as [[temp f3]| |] eqn:E3; try discriminate. simpl in H0.
    apply read_contents in E3. rewrite Hc2 in E3.
    replace s with (Z.of_nat (Z.to_nat s)) in H0 by lia.
    rewrite seek_nat, E3 in H0. simpl in H0.
    destruct (copy_lines fuel temp
                (write (dumps (setitem js "language" language'))
                   (mkFile project (Z.to_nat s))))
      as [f'| |] eqn:E5; try discriminate.
    simpl in H0. injection H0 as <-.
    apply rewrite_from in E5; [|lia]. rewrite E5. split.
    + apply write_bytes_prefix. lia.
    + rewrite write_bytes_grows by lia. lia.
Qed.

Lemma add_language_support_never_shrinks_scenario :
  exists key gi,
    stream_search 128 scenario "gameInformation" 0 = Ret key
    /\ stream_search 128 scenario "{" key = Ret (Z.of_nat gi)
    /\ firstn gi scenario_with_italian = firstn gi scenario
    /\ (length scenario <= length scenario_with_italian)%nat.
Proof.
  apply (add_language_support_never_shrinks 128 scenario scenario_with_italian "it_IT").
  reflexivity.
Defined.

End RewriterExtras.

(** ** The batch traversal *)

Module TranslationExtras.

Import Utils Translation Documents Views TranslationProperties.

Lemma node_ind2 (P : node -> Prop) :
  (forall t, P (Node t None)) ->
  (forall t cs, Forall P cs -> P (Node t (Some cs))) ->
  forall n, P n.
Proof.
  intros H0 H1. fix IH 1. intros [t [cs|]]; [apply H1|apply H0].
  induction cs as [|c cs IHcs]; constructor; [apply IH|exact IHcs].
Qed.

Section Tree.

Context `{Translator}.
Variables (lang_src lang_dest : string) (skip : bool).

Lemma without_set (lang v : string) (d : mapping) :
  without lang (set lang v d) = without lang d.
Proof.
  induction d as [|[k x] d IH]; simpl.
  - now rewrite String.eqb_refl.
  - destruct (String.eqb k lang) eqn:E; simpl; rewrite E; simpl; [reflexivity|].
    now rewrite IH.
Qed.

Lemma translate_text_without (d : mapping) (w : world) :
  without lang_dest (fst (translate_text lang_src lang_dest skip d w))
  = without lang_dest d.
Proof.
  unfold translate_text. destruct d as [|[k x] d]; [reflexivity|].
  destruct (skip && mem lang_dest ((k, x) :: d)); [reflexivity|].
  destruct (google _ _ _ _) as [[tr|e] remote']; [|reflexivity].
  cbn [fst]. apply without_set.
Qed.

Lemma translate_child_erase (c : node) :
  forall w, erase lang_dest (fst (translate_child lang_src lang_dest skip c w))
            = erase lang_dest c.
Proof.
  induction c as [t|t cs IH] using node_ind2; intros w.
  - destruct t as [d|]; [|reflexivity].
    cbn [translate_child]. pose proof (translate_text_without d w) as Hd.
    destruct (translate_text lang_src lang_dest skip d w) as [d' w'].
    cbn [fst] in *. cbn [erase option_map]. now rewrite Hd.
  - destruct t as [d|].
    + cbn [translate_child]. pose proof (translate_text_without d w) as Hd.
      destruct (translate_text lang_src lang_dest skip d w) as [d' w'].
      cbn [fst] in *. cbn [erase option_map]. now rewrite Hd.
    + rewrite translate_child_nested.
      assert (Hcs : forall w0,
                map (erase lang_dest)
                  (fst (translate_children lang_src lang_dest skip cs w0))
                = map (erase lang_dest) cs).
      { clear w. induction IH as [|c cs Hc _ IHcs]; intros w0; [reflexivity|].
        cbn [translate_children]. specialize (Hc w0).
        destruct (translate_child lang_src lang_dest skip c w0) as [c' w1].
        specialize (IHcs w1).
        destruct (translate_children lang_src lang_dest skip cs w1) as [cs' w2].
        cbn [fst map] in *. now rewrite Hc, IHcs. }
      specialize (Hcs w).
      destruct (translate_children lang_src lang_dest skip cs w) as [cs' w'].
      cbn [fst] in *. cbn [erase option_map]. now rewrite Hcs.
Qed.

Lemma translate_children_erase (cs : list node) :
  forall w, map (erase lang_dest)
              (fst (translate_children lang_src lang_dest skip cs w))
            = map (erase lang_dest) cs.
Proof.
  induction cs as [|c cs IH]; intros w; [reflexivity|].
  cbn [translate_children]. pose proof (translate_child_erase c w) as Hc.
  destruct (translate_child lang_src lang_dest skip c w) as [c' w1].
  specialize (IH w1).
  destruct (translate_children lang_src lang_dest skip cs w1) as [cs' w2].
  cbn [fst map] in *. now rewrite Hc, IH.
Qed.

(** X15: [translate_block] changes nothing but entries for the
    destination locale: with those entries removed, the block it leaves
    is the block it was given (same nodes, same order, same other
    locales). *)
Theorem translate_block_changes_only_destination (block block' : node)
    (w w' : world) :
  translate_block block lang_src lang_dest skip w = Ret (block', w') ->
  erase lang_dest block' = erase lang_dest block.
Proof.
  destruct block as [t [cs|]]; [|discriminate]. unfold translate_block.
  pose proof (translate_children_erase cs w) as Hcs.
  destruct (translate_children lang_src lang_dest skip cs w) as [cs' w1].
  intros [= <- <-]. cbn [fst] in Hcs. cbn [erase option_map]. now rewrite Hcs.
Qed.

End Tree.

Section Skip.

Context `{Translator}.
Variables (lang_src lang_dest : string).

Lemma translate_child_settled (c : node) :
  settled lang_dest c = true ->
  forall w, translate_child lang_src lang_dest true c w = (c, w).
Proof.
  induction c as [t|t cs IH] using node_ind2; intros Hs w.
  - destruct t as [[|[k x] d]|]; try reflexivity.
    cbn [settled] in Hs. cbn [translate_child]. unfold translate_text.
    cbn [andb]. now rewrite Hs.
  - destruct t as [[|[k x] d]|]; try reflexivity.
    + cbn [settled] in Hs. cbn [translate_child]. unfold translate_text.
      cbn [andb]. now rewrite Hs.
    + rewrite translate_child_nested. cbn [settled] in Hs.
      assert (Hcs : forall w0, translate_children lang_src lang_dest true cs w0 = (cs, w0)).
      { clear w. induction IH as [|c cs Hc _ IHcs]; intros w0; [reflexivity|].
        cbn [forallb] in Hs. apply andb_true_iff in Hs as (Hc1 & Hcs1).
        cbn [translate_children]. rewrite (Hc Hc1 w0). now rewrite (IHcs Hcs1 w0). }
      now rewrite Hcs.
Qed.

(** X16: with [skip] set, a block in which every text mapping reached is
    empty or already has the destination locale is left as it is, and
    neither the service nor the log is touched. *)
Theorem translate_block_skip_settled (t : option mapping) (cs : list node) (w : world) :
  forallb (settled lang_dest) cs = true ->
  translate_block (Node t (Some cs)) lang_src lang_dest true w
  = Ret (Node t (Some cs), w).
Proof.
  intros Hs. unfold translate_block.
  assert (Hcs : forall l w0, forallb (settled lang_dest) l = true ->
            translate_children lang_src lang_dest true l w0 = (l, w0)).
  { induction l as [|c l IH]; intros w0 Hl; [reflexivity|].
    cbn [forallb] in Hl. apply andb_true_iff in Hl as (Hc & Hl).
    cbn [translate_children]. rewrite (translate_child_settled c Hc w0).
    now rewrite (IH w0 Hl). }
  now rewrite Hcs.
Qed.

End Skip.

Lemma get_set_same (key v : string) (d : mapping) : get key (set key v d) = Some v.
Proof.
  induction d as [|[k x] d IH]; simpl.
  - now rewrite String.eqb_refl.
  - destruct (String.eqb k key) eqn:E; simpl; now rewrite E.
Qed.

Lemma get_set_other (key k v : string) (d : mapping) :
  k <> key -> get k (set key v d) = get k d.
Proof.
  intros Hne. induction d as [|[k' x] d IH]; simpl.
  - destruct (String.eqb key k) eqn:E; [|reflexivity].
    apply String.eqb_eq in E. congruence.
  - destruct (String.eqb k' key) eqn:E; simpl.
    + apply String.eqb_eq in E. subst k'.
      destruct (String.eqb key k) eqn:E'; [|reflexivity].
      apply String.eqb_eq in E'. congruence.
    + now rewrite IH.
Qed.

Section Success.

Context `{Translator}.
Variables (lang_src lang_dest : string) (skip : bool).

(** X17: when the translation of one child succeeds, its mapping gets
    the translation under the destination locale, every other locale of
    the mapping reads as before, nothing is logged, and the children after
    it are translated from the state the call left. *)
Theorem translate_block_records_translation
    (t : option mapping) (before after before' after' : list node)
    (dictionary : mapping) (cs : option (list node))
    (k default_value : string) (rest : mapping)
    (w w1 w2 : world) (translation : string) (remote' : service) :
  dictionary = (k, default_value) :: rest ->
  skip && mem lang_dest dictionary = false ->
  translate_children lang_src lang_dest skip before w = (before', w1) ->
  google (remote w1) (source_value lang_src dictionary default_value)
         (source_language lang_src) (iso_from_locale lang_dest)
    = (inl translation, remote') ->
  translate_children lang_src lang_dest skip after (mkWorld (log w1) remote')
    = (after', w2) ->
  translate_block (Node t (Some (before ++ Node (Some dictionary) cs :: after)))
    lang_src lang_dest skip w
  = Ret (Node t (Some (before'
                       ++ Node (Some (set lang_dest translation dictionary)) cs
                       :: after')), w2)
  /\ get lang_dest (set lang_dest translation dictionary) = Some translation
  /\ (forall other, other <> lang_dest ->
        get other (set lang_dest translation dictionary) = get other dictionary).
Proof.
  intros Hdict Hskip Hbefore Hok Hafter. split; [|split].
  - unfold translate_block. rewrite translate_children_app, Hbefore.
    cbn [translate_children translate_child]. unfold translate_text.
    rewrite Hdict in *. rewrite Hskip, Hok, Hafter. reflexivity.
  - apply get_set_same.
  - intros other Hne. now apply get_set_other.
Qed.

End Success.

Lemma translate_block_records_translation_flaky :
  @translate_block flaky (Node None (Some ([] ++ says "Hello" :: [says "Goodbye"])))
    "en_US" "it_IT" false (@mkWorld flaky [] 0%nat)
  = Ret (Node None
           (Some ([] ++ Node (Some (set "it_IT" "Hello in it" [("en_US", "Hello")]%string))
                          None
                  :: [says "Goodbye"])),
         @mkWorld flaky (log_failure "timed out" []) 2%nat)
  /\ get "it_IT" (set "it_IT" "Hello in it" [("en_US", "Hello")]%string)
     = Some "Hello in it"%string
  /\ (forall other, other <> "it_IT"%string ->
        get other (set "it_IT" "Hello in it" [("en_US", "Hello")]%string)
        = get other [("en_US", "Hello")]%string).
Proof.
  apply (@translate_block_records_translation flaky "en_US" "it_IT" false None
           [] [says "Goodbye"] [] [says "Goodbye"] [("en_US", "Hello")]%string None
           "en_US" "Hello" [] (@mkWorld flaky [] 0%nat) (@mkWorld flaky [] 0%nat)
           (@mkWorld flaky (log_failure "timed out" []) 2%nat) "Hello in it" 1%nat);
    reflexivity.
Defined.

Lemma translate_block_changes_only_destination_flaky :
  erase "it_IT"
    (Node None
       (Some [Node (Some [("en_US", "Hello"); ("it_IT", "Hello in it")]%string) None;
              says "Goodbye"]))
  = erase "it_IT" (Node None (Some [says "Hello"; says "Goodbye"])).
Proof.
  apply (@translate_block_changes_only_destination flaky "en_US" "it_IT" false
           (Node None (Some [says "Hello"; says "Goodbye"])) _
           (@mkWorld flaky [] 0%nat)
           (@mkWorld flaky (log_failure "timed out" []) 2%nat)).
  reflexivity.
Defined.

Lemma translate_block_skip_settled_flaky :
  @translate_block flaky
    (Node None (Some [Node (Some [("en_US", "Hello"); ("it_IT", "Ciao")]%string) None;
                      Node None (Some [Node (Some []) None])]))
    "en_US" "it_IT" true (@mkWorld flaky [] 0%nat)
  = Ret (Node None (Some [Node (Some [("en_US", "Hello"); ("it_IT", "Ciao")]%string) None;
                          Node None (Some [Node (Some []) None])]),
         @mkWorld flaky [] 0%nat).
Proof.
  apply (@translate_block_skip_settled flaky "en_US" "it_IT"). reflexivity.
Defined.

End TranslationExtras.
